(** * redis_cache: a shallow embedding of [src/redis_cache/__init__.py]

    The development follows the source top-down: the Redis server commands
    the Lua script and the Python client rely on, the Lua script registered
    by [get_cache_lua_fn], then [CacheDecorator] (key derivation, the wrapped
    call [inner], [invalidate], [invalidate_all]) and [RedisCache.mget].

    Python code runs in a small state-and-exception monad over a [world]:
    the Redis server, a schedule of network faults, and a trace of every
    call made to a collaborator (the store, the wrapped computation).

    What the model fixes about the collaborators:
    - the wrapped computation is a deterministic function of its arguments;
    - serializers and deserializers are partial functions ([None] raises);
    - a script call is one round trip (registration and the reload after
      NOSCRIPT are not modelled), and so is [pipeline.execute()];
    - the pipeline is the transactional one: every queued command runs and
      the first error reply is raised afterwards;
    - MGET answers for any number of keys;
    - time does not pass between commands: a time to live is recorded with
      the value and nothing expires. *)

From Stdlib Require Import Ascii String QArith Lqa DecimalString DecimalPos.
From stdpp Require Import gmap strings list fin_maps.

Local Open Scope Z_scope.
Local Open Scope string_scope.
Local Open Scope list_scope.
Set Warnings "-register-all".

(** ** Python values *)

(** The objects the cache sees: positional arguments, keyword arguments and
    results.  Positional arguments are modelled by their element list (the
    tuple or list holding them is not distinguished), keyword arguments by
    an association list in arrival order. *)
Inductive pyobj : Type :=
  | PyNone
  | PyBool (b : bool)
  | PyInt (n : Z)
  | PyStr (s : string)
  | PyList (xs : list pyobj)
  | PyDict (kvs : list (string * pyobj)).

Abbreviation pyargs := (list pyobj).
Abbreviation pykwargs := (list (string * pyobj)).

(** What a serializer hands back: [str] or [bytes]. *)
Inductive serialized : Type :=
  | SStr (s : string)
  | SBytes (b : string).

(** The bytes sent to Redis as [ARGV[1]] (a [str] is sent as its bytes). *)
Definition wire (x : serialized) : string :=
  match x with SStr s => s | SBytes b => b end.

(** The exceptions that can reach the caller. *)
Inductive exn : Type :=
  | ConnectionError            (* redis.exceptions.ConnectionError *)
  | TimeoutError               (* redis.exceptions.TimeoutError *)
  | ResponseError (msg : string) (* error reply of the server *)
  | CodecError.                (* raised by a serializer or deserializer *)

#[global] Instance exn_eq_dec : EqDecision exn.
Proof. solve_decision. Defined.

(** ** base64 (for [b64encode] in [get_key]) *)

Definition b64_alphabet : string :=
  "ABCDEFGHIJKLMNOPQRSTUVWXYZabcdefghijklmnopqrstuvwxyz0123456789+/".

Definition b64_char (n : N) : ascii :=
  match String.get (N.to_nat n) b64_alphabet with
  | Some c => c
  | None => "="%char
  end.

Definition b64_put (n : N) (rest : string) : string := String (b64_char n) rest.

Fixpoint b64encode (s : string) : string :=
  match s with
  | EmptyString => EmptyString
  | String a EmptyString =>
      let x := (N_of_ascii a * 65536)%N in
      b64_put (x / 262144) (b64_put ((x / 4096) mod 64) "==")
  | String a (String b EmptyString) =>
      let x := (N_of_ascii a * 65536 + N_of_ascii b * 256)%N in
      b64_put (x / 262144) (b64_put ((x / 4096) mod 64)
        (b64_put ((x / 64) mod 64) "="))
  | String a (String b (String c rest)) =>
      let x := (N_of_ascii a * 65536 + N_of_ascii b * 256 + N_of_ascii c)%N in
      b64_put (x / 262144) (b64_put ((x / 4096) mod 64)
        (b64_put ((x / 64) mod 64) (b64_put (x mod 64) (b64encode rest))))
  end.

(** ** State and exceptions *)

(** A computation over a state [S] that returns or raises; what it did to
    the state before raising stays done. *)
Definition st (S A : Type) : Type := S -> (exn + A) * S.

#[global] Instance st_ret {S} : MRet (st S) := fun A a s => (inr a, s).

#[global] Instance st_bind {S} : MBind (st S) := fun A B f m s =>
  match m s with
  | (inl e, s') => (inl e, s')
  | (inr a, s') => f a s'
  end.

Definition raise {S A} (e : exn) : st S A := fun s => (inl e, s).

(** Run a step that reads and replaces the state or fails without effect. *)
Definition step {S A} (c : S -> exn + A * S) : st S A := fun s =>
  match c s with
  | inl e => (inl e, s)
  | inr (a, s') => (inr a, s')
  end.

Definition of_sum {S A} (x : exn + A) : st S A := fun s => (x, s).

(** ** The Redis server *)

(** A key holds a string (with an optional time to live, in seconds) or a
    sorted set: a finite map from members to scores.  Scores are kept as
    exact rationals; the server rounds them to doubles, which can merge two
    close scores but never reorders them. *)
Inductive rvalue : Type :=
  | RString (v : string) (expire : option Z)
  | RZSet (z : gmap string Q).

Record redis : Type := mkRedis {
  db : gmap string rvalue;
  clock : nat -> N * N;   (* the i-th answer to TIME: seconds, microseconds *)
  tick : nat              (* how many times TIME has been answered *)
}.

Definition with_db (d : gmap string rvalue) (r : redis) : redis :=
  {| db := d; clock := clock r; tick := tick r |}.

Definition WRONGTYPE : exn :=
  ResponseError "WRONGTYPE Operation against a key holding the wrong kind of value".
Definition WRONGARITY : exn :=
  ResponseError "ERR wrong number of arguments".

(** The order of a sorted set: by score, ties by member (byte-wise). *)
Definition zentry_leb (a b : string * Q) : bool :=
  match Qcompare a.2 b.2 with
  | Lt => true
  | Gt => false
  | Eq => String.leb a.1 b.1
  end.

Definition zmin_step (x : string * Q) (acc : option (string * Q)) : option (string * Q) :=
  match acc with
  | None => Some x
  | Some m => if zentry_leb x m then Some x else Some m
  end.

(** The first entry of a sorted set in its order. *)
Definition zmin (z : gmap string Q) : option (string * Q) :=
  foldr zmin_step None (map_to_list z).

(** Pop the [n] first entries (fewer when the set runs out). *)
Fixpoint zpopmin (n : nat) (z : gmap string Q) : list (string * Q) * gmap string Q :=
  match n with
  | O => ([], z)
  | S n' =>
      match zmin z with
      | None => ([], z)
      | Some (m, sc) =>
          let '(popped, rest) := zpopmin n' (delete m z) in
          ((m, sc) :: popped, rest)
      end
  end.

(** An emptied sorted set is removed from the key space. *)
Definition put_zset (k : string) (z : gmap string Q) (d : gmap string rvalue) : gmap string rvalue :=
  if decide (z = ∅) then delete k d else <[k := RZSet z]> d.

Definition delete_all (ks : list string) (d : gmap string rvalue) : gmap string rvalue :=
  foldr delete d ks.

Definition delete_members (ms : list string) (z : gmap string Q) : gmap string Q :=
  foldr delete z ms.

(** SET key value / SETEX key ttl value: unconditional overwrite. *)
Definition redis_SET (k v : string) (r : redis) : exn + string * redis :=
  inr ("OK", with_db (<[k := RString v None]> (db r)) r).

Definition redis_SETEX (k : string) (ttl : Z) (v : string) (r : redis) : exn + string * redis :=
  inr ("OK", with_db (<[k := RString v (Some ttl)]> (db r)) r).

(** Decimal rendering of a number, as in a Redis integer reply. *)
Definition decimal (n : N) : string := NilEmpty.string_of_uint (N.to_uint n).

(** TIME: the two parts as decimal strings; the microseconds are not padded. *)
Definition redis_TIME (r : redis) : exn + (string * string) * redis :=
  let '(sec, usec) := clock r (tick r) in
  inr ((decimal sec, decimal usec),
       {| db := db r; clock := clock r; tick := S (tick r) |}).

Definition redis_ZADD (zk : string) (score : Q) (member : string) (r : redis) : exn + Z * redis :=
  match db r !! zk with
  | None => inr (1, with_db (<[zk := RZSet {[member := score]}]> (db r)) r)
  | Some (RZSet z) =>
      inr (if z !! member is Some _ then 0 else 1,
           with_db (<[zk := RZSet (<[member := score]> z)]> (db r)) r)
  | Some (RString _ _) => inl WRONGTYPE
  end.

(** ZCOUNT key -inf +inf *)
Definition redis_ZCOUNT_all (zk : string) (r : redis) : exn + Z * redis :=
  match db r !! zk with
  | None => inr (0, r)
  | Some (RZSet z) => inr (Z.of_nat (size z), r)
  | Some (RString _ _) => inl WRONGTYPE
  end.

(** ZPOPMIN key count: the popped members with their scores, lowest first. *)
Definition redis_ZPOPMIN (zk : string) (count : Z) (r : redis) : exn + list (string * Q) * redis :=
  match db r !! zk with
  | None => inr ([], r)
  | Some (RZSet z) =>
      let '(popped, rest) := zpopmin (Z.to_nat count) z in
      inr (popped, with_db (put_zset zk rest (db r)) r)
  | Some (RString _ _) => inl WRONGTYPE
  end.

Definition redis_ZREM (zk : string) (members : list string) (r : redis) : exn + Z * redis :=
  match members with
  | [] => inl WRONGARITY
  | _ =>
      match db r !! zk with
      | None => inr (0, r)
      | Some (RZSet z) =>
          let z' := delete_members members z in
          inr (Z.of_nat (size z - size z'), with_db (put_zset zk z' (db r)) r)
      | Some (RString _ _) => inl WRONGTYPE
      end
  end.

Definition redis_DEL (ks : list string) (r : redis) : exn + Z * redis :=
  match ks with
  | [] => inl WRONGARITY
  | _ =>
      inr (Z.of_nat (size (db r) - size (delete_all ks (db r))),
           with_db (delete_all ks (db r)) r)
  end.

Definition redis_GET (k : string) (r : redis) : exn + option string * redis :=
  match db r !! k with
  | None => inr (None, r)
  | Some (RString v _) => inr (Some v, r)
  | Some (RZSet _) => inl WRONGTYPE
  end.

Definition mget_one (d : gmap string rvalue) (k : string) : option string :=
  match d !! k with
  | Some (RString v _) => Some v
  | _ => None
  end.

(** MGET: one reply per key, in order; a key of another type reads as absent. *)
Definition redis_MGET (ks : list string) (r : redis) : exn + list (option string) * redis :=
  inr (mget_one (db r) <$> ks, r).

(** ZRANGE key 0 -1: every member, lowest first. *)
Definition redis_ZRANGE_all (zk : string) (r : redis) : exn + list string * redis :=
  match db r !! zk with
  | None => inr ([], r)
  | Some (RZSet z) => inr ((zpopmin (size z) z).1.*1, r)
  | Some (RString _ _) => inl WRONGTYPE
  end.

(** ** The Lua script of [get_cache_lua_fn] *)

(** Lua code on the server: [redis.call] raises on an error reply and the
    script stops there, keeping what the earlier calls did. *)
Abbreviation lua := (st redis).

Fixpoint split_dot (s : string) : string * option string :=
  match s with
  | EmptyString => (EmptyString, None)
  | String c rest =>
      if Ascii.eqb c "."%char then (EmptyString, Some rest)
      else let '(a, b) := split_dot rest in (String c a, b)
  end.

Definition pow10 (n : nat) : positive := Nat.iter n (Pos.mul 10) 1%positive.

(** Lua's [tonumber] on the numerals the script meets: decimal digits with
    an optional fraction.  Anything else is [nil]. *)
Definition tonumber (s : string) : option Q :=
  match split_dot s with
  | (ip, None) =>
      match ip, NilEmpty.uint_of_string ip with
      | String _ _, Some i => Some (inject_Z (Z.of_N (N.of_uint i)))
      | _, _ => None
      end
  | (ip, Some fp) =>
      match NilEmpty.uint_of_string ip, NilEmpty.uint_of_string fp with
      | Some i, Some f =>
          match ip, fp with
          | EmptyString, EmptyString => None
          | _, _ =>
              Some (Qmake (Z.of_N (N.of_uint (Decimal.app i f)))
                          (pow10 (Decimal.nb_digits f)))
          end
      | _, _ => None
      end
  end.

Definition lua_tonumber (s : string) : lua Q :=
  match tonumber s with
  | Some q => mret q
  | None => raise (ResponseError "ERR value is not a valid float")
  end.

(** The script, with [KEYS[1]], [KEYS[2]] and [ARGV[1..3]]; [ARGV[2]] and
    [ARGV[3]] carry the decimal rendering of Python integers, read back
    with [tonumber]. *)
Definition cache_lua_fn (KEYS1 KEYS2 ARGV1 : string) (ARGV2 ARGV3 : Z) : lua string :=
  let ttl := ARGV2 in
  value ← (if (0 <? ttl)%Z
           then step (redis_SETEX KEYS1 ttl ARGV1)
           else step (redis_SET KEYS1 ARGV1));
  let limit := ARGV3 in
  (if (0 <? limit)%Z then
     time_parts ← step redis_TIME;
     time ← lua_tonumber (time_parts.1 +:+ "." +:+ time_parts.2);
     _ ← step (redis_ZADD KEYS2 time KEYS1);
     count ← step (redis_ZCOUNT_all KEYS2);
     let over := count - limit in
     if (0 <? over)%Z then
       stale_keys_and_scores ← step (redis_ZPOPMIN KEYS2 over);
       (* drop the scores and keep the keys *)
       let stale_keys := stale_keys_and_scores.*1 in
       _ ← step (redis_ZREM KEYS2 stale_keys);
       _ ← step (redis_DEL stale_keys);
       mret ()
     else mret ()
   else mret ());;
  mret value.

(** ** The Python client *)

(** The commands the library sends. *)
Inductive command : Type :=
  | GET (key : string)
  | MGET (keys : list string)
  | EVALSHA (key1 key2 : string) (value : string) (ttl limit : Z)
  | DEL (keys : list string)
  | ZREM (zkey : string) (members : list string)
  | ZRANGE_ALL (zkey : string).   (* ZRANGE zkey 0 -1 *)

(** Every call to a collaborator, in order. *)
Inductive event : Type :=
  | EvCall (fn : string) (args : pyargs) (kwargs : pykwargs) (* the wrapped computation *)
  | EvSend (c : command)             (* one command, one round trip *)
  | EvExecute (cs : list command).   (* pipeline.execute(): one round trip *)

Record world : Type := mkWorld {
  server : redis;
  fault : nat -> option exn;   (* what the i-th round trip raises, if anything *)
  round_trips : nat;
  trace : list event
}.

Abbreviation py := (st world).

(** The world once [ev] is in the trace. *)
Definition logged (ev : event) (w : world) : world :=
  {| server := server w; fault := fault w;
     round_trips := round_trips w; trace := trace w ++ [ev] |}.

(** The world once the round trip [ev] is over and has left the server as [srv]. *)
Definition after_round_trip (ev : event) (srv : redis) (w : world) : world :=
  {| server := srv; fault := fault w;
     round_trips := S (round_trips w); trace := trace w ++ [ev] |}.

Definition log (ev : event) : py () := fun w => (inr (), logged ev w).

(** One round trip: the attempt is logged, then the scheduled fault is
    raised or the server runs [cmd]. *)
Definition round_trip {A} (ev : event) (cmd : lua A) : py A := fun w =>
  match fault w (round_trips w) with
  | Some e => (inl e, after_round_trip ev (server w) w)
  | None =>
      let '(res, srv) := cmd (server w) in
      (res, after_round_trip ev srv w)
  end.

(** A queued command run by the server; its reply is not used. *)
Definition run_command (c : command) : lua () :=
  match c with
  | GET k => step (redis_GET k) ;; mret ()
  | MGET ks => step (redis_MGET ks) ;; mret ()
  | EVALSHA k1 k2 v ttl limit => cache_lua_fn k1 k2 v ttl limit ;; mret ()
  | DEL ks => step (redis_DEL ks) ;; mret ()
  | ZREM zk ms => step (redis_ZREM zk ms) ;; mret ()
  | ZRANGE_ALL zk => step (redis_ZRANGE_all zk) ;; mret ()
  end.

(** MULTI/EXEC: every queued command runs; the first error reply, if any,
    is raised once all have run. *)
Fixpoint run_pipeline (cs : list command) : lua () := fun r =>
  match cs with
  | [] => (inr (), r)
  | c :: cs' =>
      let '(res, r1) := run_command c r in
      let '(res', r2) := run_pipeline cs' r1 in
      (match res with inl e => inl e | inr _ => res' end, r2)
  end.

Definition client_get (key : string) : py (option string) :=
  round_trip (EvSend (GET key)) (step (redis_GET key)).

Definition client_mget (keys : list string) : py (list (option string)) :=
  round_trip (EvSend (MGET keys)) (step (redis_MGET keys)).

Definition client_zrange_all (zkey : string) : py (list string) :=
  round_trip (EvSend (ZRANGE_ALL zkey)) (step (redis_ZRANGE_all zkey)).

Definition client_delete (keys : list string) : py Z :=
  round_trip (EvSend (DEL keys)) (step (redis_DEL keys)).

(** [get_cache_lua_fn(client)(keys=..., args=...)] on the client itself. *)
Definition call_lua_fn (key1 key2 value : string) (ttl limit : Z) : py string :=
  round_trip (EvSend (EVALSHA key1 key2 value ttl limit))
             (cache_lua_fn key1 key2 value ttl limit).

Definition pipeline_execute (cs : list command) : py () :=
  round_trip (EvExecute cs) (run_pipeline cs).

(** ** CacheDecorator *)

(** A wrapped computation: deterministic, and named for [__module__] and
    [__name__]. *)
Record pyfun : Type := mkFun {
  fn_module : string;
  fn_name : string;
  fn_body : pyargs -> pykwargs -> pyobj
}.

Definition qualname (f : pyfun) : string := fn_module f +:+ "." +:+ fn_name f.

Definition call_fn (f : pyfun) (args : pyargs) (kwargs : pykwargs) : py pyobj :=
  log (EvCall (qualname f) args kwargs) ;; mret (fn_body f args kwargs).

(** The decorator once [__call__] has run; a codec returning [None] raises. *)
Record CacheDecorator : Type := mkCacheDecorator {
  prefix : string;
  serializer : pyobj -> option serialized;
  deserializer : string -> option pyobj;
  ttl : Z;
  limit : Z;
  namespace : string;
  keys_key : string;
  ismethod : bool;
  original_fn : pyfun;
  offline : bool
}.

(** [__init__] followed by [__call__(fn)]. *)
Definition CacheDecorator_call (prefix : string)
    (serializer : pyobj -> option serialized) (deserializer : string -> option pyobj)
    (ttl limit : Z) (namespace : option string) (ismethod : bool) (fn : pyfun) : CacheDecorator :=
  let namespace :=
    match namespace with
    | Some (String c s) => String c s
    | _ => qualname fn
    end in
  {| prefix := prefix; serializer := serializer; deserializer := deserializer;
     ttl := ttl; limit := limit; namespace := namespace;
     keys_key := prefix +:+ ":" +:+ namespace +:+ ":keys";
     ismethod := ismethod; original_fn := fn; offline := false |}.

Definition set_offline (self : CacheDecorator) : CacheDecorator :=
  {| prefix := prefix self; serializer := serializer self;
     deserializer := deserializer self; ttl := ttl self; limit := limit self;
     namespace := namespace self; keys_key := keys_key self;
     ismethod := ismethod self; original_fn := original_fn self; offline := true |}.

Definition codec {S A} (x : option A) : st S A :=
  match x with
  | Some a => mret a
  | None => raise CodecError
  end.

Definition get_key (self : CacheDecorator) (args : pyargs) (kwargs : pykwargs) : exn + string :=
  match serializer self (PyList [PyList args; PyDict kwargs]) with
  | None => inl CodecError
  | Some serialized_data =>
      let serialized_data :=
        match serialized_data with
        | SStr s => s
        | SBytes b => b64encode b
        end in
      inr (prefix self +:+ ":" +:+ namespace self +:+ ":" +:+ serialized_data)
  end.

(** Python's [not result] on the reply of GET. *)
Definition falsy (result : option string) : bool :=
  match result with
  | None => true
  | Some EmptyString => true
  | Some _ => false
  end.

(** [try: x = body / except redis.exceptions.ConnectionError: handler],
    followed by [rest x] when [body] returned; [handler] ends the call. *)
Definition try_except_ConnectionError {A B} (body : py A) (handler : py B)
    (rest : A -> py B) : py B := fun w =>
  match body w with
  | (inl ConnectionError, w1) => handler w1
  | (inl e, w1) => (inl e, w1)
  | (inr x, w1) => rest x w1
  end.

(** The wrapped call.  It returns the result together with the decorator,
    whose [offline] flag it may have set; when it raises, the decorator is
    as before. *)
Definition inner (self : CacheDecorator) (args : pyargs) (kwargs : pykwargs)
    : py (pyobj * CacheDecorator) :=
  let fn := original_fn self in
  if offline self then
    result ← call_fn fn args kwargs; mret (result, self)
  else
    key ← of_sum (if ismethod self
                  then get_key self (tail args) kwargs
                  else get_key self args kwargs);
    try_except_ConnectionError (client_get key)
      (* assume redis is out for rest of session *)
      (result ← call_fn fn args kwargs; mret (result, set_offline self))
      (fun result =>
         if falsy result then
           result ← call_fn fn args kwargs;
           result_serialized ← codec (serializer self result);
           _ ← call_lua_fn key (keys_key self) (wire result_serialized)
                           (ttl self) (limit self);
           mret (result, self)
         else
           result ← codec (deserializer self (default EmptyString result));
           mret (result, self)).

Definition invalidate (self : CacheDecorator) (args : pyargs) (kwargs : pykwargs) : py () :=
  key ← of_sum (get_key self args kwargs);
  pipeline_execute [DEL [key]; ZREM (keys_key self) [key]].

Definition invalidate_all (self : CacheDecorator) : py () :=
  all_keys ← client_zrange_all (keys_key self);
  _ ← client_delete (all_keys ++ [keys_key self]);
  mret ().

(** ** RedisCache *)

Record RedisCache : Type := mkRedisCache {
  rc_prefix : string;
  rc_serializer : pyobj -> option serialized;
  rc_deserializer : string -> option pyobj
}.

(** [@cache.cache(ttl, limit, namespace, ismethod)] applied to [fn]. *)
Definition RedisCache_cache (self : RedisCache) (ttl limit : Z)
    (namespace : option string) (ismethod : bool) (fn : pyfun) : CacheDecorator :=
  CacheDecorator_call (rc_prefix self) (rc_serializer self) (rc_deserializer self)
                      ttl limit namespace ismethod fn.

(** One element of [mget]'s arguments: [fn] is the wrapped function (known
    by its [instance]); the keys ['args'] and ['kwargs'] may be missing. *)
Record request : Type := mkRequest {
  req_fn : CacheDecorator;
  req_args : option pyargs;
  req_kwargs : option pykwargs
}.

Definition args_of (rq : request) : pyargs := default [] (req_args rq).
Definition kwargs_of (rq : request) : pykwargs := default [] (req_kwargs rq).

Definition IndexError : exn := ResponseError "IndexError: list index out of range".

Fixpoint mget_keys (fns_with_args : list request) : exn + list string :=
  match fns_with_args with
  | [] => inr []
  | fn_and_args :: rest =>
      match get_key (req_fn fn_and_args) (args_of fn_and_args) (kwargs_of fn_and_args) with
      | inl e => inl e
      | inr key =>
          match mget_keys rest with
          | inl e => inl e
          | inr keys => inr (key :: keys)
          end
      end
  end.

(** The loop over [enumerate(results)], from index [i] on; the state is
    [deserialized_results], [needs_pipeline] and the commands queued on
    the pipeline. *)
Fixpoint mget_loop (self : RedisCache) (fns_with_args : list request)
    (keys : list string) (i : nat) (results : list (option string))
    (acc : list pyobj * bool * list command) : py (list pyobj * bool * list command) :=
  match results with
  | [] => mret acc
  | result :: rest =>
      let '(deserialized_results, needs_pipeline, pipeline) := acc in
      acc' ←
        match result with
        | None =>
            match fns_with_args !! i, keys !! i with
            | Some fn_and_args, Some key =>
                let fn := req_fn fn_and_args in
                result ← call_fn (original_fn fn) (args_of fn_and_args) (kwargs_of fn_and_args);
                result_serialized ← codec (rc_serializer self result);
                mret (deserialized_results ++ [result], true,
                      pipeline ++ [EVALSHA key (keys_key fn) (wire result_serialized)
                                           (ttl fn) (limit fn)])
            | _, _ => raise IndexError
            end
        | Some v =>
            result ← codec (rc_deserializer self v);
            mret (deserialized_results ++ [result], needs_pipeline, pipeline)
        end;
      mget_loop self fns_with_args keys (S i) rest acc'
  end.

Definition mget (self : RedisCache) (fns_with_args : list request) : py (list pyobj) :=
  keys ← of_sum (mget_keys fns_with_args);
  results ← client_mget keys;
  '(deserialized_results, needs_pipeline, pipeline) ←
    mget_loop self fns_with_args keys 0 results ([], false, []);
  (if needs_pipeline : bool then pipeline_execute pipeline else mret ());;
  mret deserialized_results.

(** ** A small configuration for the examples *)

Module Demo.

Definition quote : string := String (ascii_of_nat 34) EmptyString.

Definition dumps_int (n : Z) : string :=
  match n with
  | Zneg p => "-" +:+ decimal (Npos p)
  | _ => decimal (Z.to_N n)
  end.

Definition join (sep : string) (parts : list string) : string :=
  match parts with
  | [] => EmptyString
  | p :: ps => foldl (fun acc x => acc +:+ sep +:+ x) p ps
  end.

(** The shape of [json.dumps] on the values above (no escaping). *)
Fixpoint dumps (o : pyobj) : string :=
  match o with
  | PyNone => "null"
  | PyBool true => "true"
  | PyBool false => "false"
  | PyInt n => dumps_int n
  | PyStr s => quote +:+ s +:+ quote
  | PyList xs => "[" +:+ join ", " (map dumps xs) +:+ "]"
  | PyDict kvs =>
      "{" +:+ join ", " (map (fun kv => quote +:+ kv.1 +:+ quote +:+ ": " +:+ dumps kv.2) kvs)
          +:+ "}"
  end.

(** [json.loads] on what the examples store: [null] and the naturals. *)
Definition loads (s : string) : option pyobj :=
  if String.eqb s "null" then Some PyNone
  else match s, NilEmpty.uint_of_string s with
       | String _ _, Some d => Some (PyInt (Z.of_N (N.of_uint d)))
       | _, _ => None
       end.

Definition json_serializer (o : pyobj) : option serialized := Some (SStr (dumps o)).

(** A codec that stores strings as they are and everything else as JSON. *)
Definition raw_serializer (o : pyobj) : option serialized :=
  match o with
  | PyStr s => Some (SStr s)
  | _ => Some (SStr (dumps o))
  end.

Definition raw_deserializer (s : string) : option pyobj := Some (PyStr s).

(** A codec that produces bytes. *)
Definition bytes_serializer (o : pyobj) : option serialized :=
  Some (SBytes ("b:" +:+ dumps o)).

Definition bytes_deserializer (s : string) : option pyobj :=
  match s with
  | String "b" (String ":" rest) => loads rest
  | _ => None
  end.

(** [def double(x): return 2 * x] and friends. *)
Definition double : pyfun :=
  {| fn_module := "app"; fn_name := "double";
     fn_body := fun args _ =>
       match args with
       | [PyInt n] => PyInt (2 * n)
       | _ => PyNone
       end |}.

Definition blank : pyfun :=
  {| fn_module := "app"; fn_name := "blank";
     fn_body := fun _ _ => PyStr EmptyString |}.

(** [def scaled(self, x): return self * x], a method with an integer
    standing for its receiver. *)
Definition scaled : pyfun :=
  {| fn_module := "app"; fn_name := "scaled";
     fn_body := fun args _ =>
       match args with
       | [PyInt k; PyInt n] => PyInt (k * n)
       | _ => PyNone
       end |}.

Definition cache : RedisCache :=
  {| rc_prefix := "rc"; rc_serializer := json_serializer; rc_deserializer := loads |}.

(** An empty server whose clock advances by one microsecond per reading,
    and a network without faults. *)
Definition server0 : redis :=
  {| db := ∅; clock := fun i => (100%N, N.of_nat i); tick := 0 |}.

Definition world0 : world :=
  {| server := server0; fault := fun _ => None; round_trips := 0; trace := [] |}.

(** The same with the connection lost at the first round trip. *)
Definition world_down : world :=
  {| server := server0; fault := fun _ => Some ConnectionError;
     round_trips := 0; trace := [] |}.

(** The connection lost at the second round trip only. *)
Definition world_write_fails : world :=
  {| server := server0;
     fault := fun i => if Nat.eqb i 1 then Some TimeoutError else None;
     round_trips := 0; trace := [] |}.

(** [@cache.cache(limit=2)] on [double]. *)
Definition double_entry : CacheDecorator :=
  RedisCache_cache cache 0 2 None false double.

(** [@cache.cache()] on [double]: no limit. *)
Definition double_untracked : CacheDecorator :=
  RedisCache_cache cache 0 0 None false double.

(** [@cache.cache(ismethod=True)] on [scaled]. *)
Definition scaled_entry : CacheDecorator :=
  RedisCache_cache cache 0 0 None true scaled.

(** [blank] behind the codec that stores strings as they are. *)
Definition blank_entry : CacheDecorator :=
  CacheDecorator_call "rc" raw_serializer raw_deserializer 0 0 None false blank.

(** [double] behind the codec that produces bytes. *)
Definition double_bytes : CacheDecorator :=
  CacheDecorator_call "rc" bytes_serializer bytes_deserializer 0 0 None false double.

Definition ask (self : CacheDecorator) (n : Z) : request :=
  {| req_fn := self; req_args := Some [PyInt n]; req_kwargs := None |}.

(** A server whose tracking set for [double] holds three members. *)
Definition server_crowded : redis :=
  {| db := {[ "rc:app.double:keys" :=
                RZSet (list_to_map [("rc:app.double:[[1], {}]", 1%Q);
                                    ("rc:app.double:[[2], {}]", 2%Q);
                                    ("rc:app.double:[[3], {}]", 3%Q)]) ]};
     clock := fun i => (100%N, N.of_nat i); tick := 0 |}.

Definition world_crowded : world :=
  {| server := server_crowded; fault := fun _ => None; round_trips := 0; trace := [] |}.

(** An empty server read at 100 s 9 us, then at 100 s 10 us, and so on. *)
Definition server_late : redis :=
  {| db := ∅; clock := fun i => (100%N, (9 + N.of_nat i)%N); tick := 0 |}.

End Demo.

(** ** Observations used in the statements *)

(** ZCARD and ZSCORE: what a client sees of the sorted set at [zk]. *)
Definition zset_at (d : gmap string rvalue) (zk : string) : gmap string Q :=
  match d !! zk with
  | Some (RZSet z) => z
  | _ => ∅
  end.

Definition zcard (d : gmap string rvalue) (zk : string) : nat := size (zset_at d zk).

Definition holds_string (d : gmap string rvalue) (k : string) : Prop :=
  ∃ v e, d !! k = Some (RString v e).

(** The score the script computes from a reading of the clock. *)
Definition time_score (t : N * N) : option Q :=
  tonumber (decimal t.1 +:+ "." +:+ decimal t.2).

(** The time to live SET or SETEX leaves on the primary key. *)
Definition expiry (ttl : Z) : option Z := if (0 <? ttl)%Z then Some ttl else None.

(** The store after the script with [limit > 0] and score [t], on a tracking
    key that is free or holds a sorted set (shown below to be what the
    script computes). *)
Definition tracked_db (k zk v : string) (ttl limit : Z) (t : Q)
    (d : gmap string rvalue) : gmap string rvalue :=
  let z1 := <[k := t]> (zset_at d zk) in
  let d2 := <[zk := RZSet z1]> (<[k := RString v (expiry ttl)]> d) in
  let over := Z.of_nat (size z1) - limit in
  if (0 <? over)%Z then
    let '(popped, rest) := zpopmin (Z.to_nat over) z1 in
    delete_all popped.*1 (<[zk := RZSet rest]> d2)
  else d2.

(** The script run once per key and value, in order, on one tracking key. *)
Fixpoint write_all (zk : string) (ttl limit : Z) (kvs : list (string * string)) : lua () :=
  match kvs with
  | [] => mret ()
  | (k, v) :: rest => cache_lua_fn k zk v ttl limit ;; write_all zk ttl limit rest
  end.

(** What GET answers for a key: nothing, or the string it holds. *)
Definition stored (d : gmap string rvalue) (key : string) (reply : option string) : Prop :=
  match reply with
  | None => d !! key = None
  | Some v => ∃ e, d !! key = Some (RString v e)
  end.

(** The key the wrapped call looks up. *)
Definition inner_key (self : CacheDecorator) (args : pyargs) (kwargs : pykwargs) : exn + string :=
  if ismethod self then get_key self (tail args) kwargs else get_key self args kwargs.

(** The result of the wrapped computation on a call. *)
Definition computed (self : CacheDecorator) (args : pyargs) (kwargs : pykwargs) : pyobj :=
  fn_body (original_fn self) args kwargs.

Definition call_event (self : CacheDecorator) (args : pyargs) (kwargs : pykwargs) : event :=
  EvCall (qualname (original_fn self)) args kwargs.

(** Calls of the wrapped function one after the other, each on the
    decorator the previous one left. *)
Fixpoint inner_all (self : CacheDecorator) (calls : list (pyargs * pykwargs))
    : py (list pyobj * CacheDecorator) :=
  match calls with
  | [] => mret ([], self)
  | (args, kwargs) :: rest =>
      '(result, self1) ← inner self args kwargs;
      '(results, self2) ← inner_all self1 rest;
      mret (result :: results, self2)
  end.

(** Batch fetch, index by index: the stored value decoded when the key is
    present, the freshly computed result when it is absent; [None] when the
    codec of the [RedisCache] raises on it. *)
Definition expected_item (self : RedisCache) (d : gmap string rvalue)
    (rq : request) (key : string) : option pyobj :=
  match mget_one d key with
  | Some v => rc_deserializer self v
  | None =>
      let result := computed (req_fn rq) (args_of rq) (kwargs_of rq) in
      if rc_serializer self result is Some _ then Some result else None
  end.

Definition is_miss (d : gmap string rvalue) (key : string) : bool :=
  if mget_one d key is None then true else false.

(** The invocation a request causes: one when its key is absent. *)
Definition miss_call (d : gmap string rvalue) (p : request * string) : list event :=
  if is_miss d p.2
  then [call_event (req_fn p.1) (args_of p.1) (kwargs_of p.1)]
  else [].

(** The write a request queues on the pipeline: one when its key is absent. *)
Definition miss_write (self : RedisCache) (d : gmap string rvalue)
    (p : request * string) : list command :=
  if is_miss d p.2 then
    match rc_serializer self (computed (req_fn p.1) (args_of p.1) (kwargs_of p.1)) with
    | Some s => [EVALSHA p.2 (keys_key (req_fn p.1)) (wire s)
                         (ttl (req_fn p.1)) (limit (req_fn p.1))]
    | None => []
    end
  else [].

(** A write queued by [mget]: the script on a key of the batch, for the
    decorator of one of its requests. *)
Definition queued_by (reqs : list request) (keys : list string) (c : command) : Prop :=
  ∃ rq key v, rq ∈ reqs ∧ key ∈ keys
              ∧ c = EVALSHA key (keys_key (req_fn rq)) v (ttl (req_fn rq)) (limit (req_fn rq)).

(** The sorted set holds exactly the [j] first keys, each with its score. *)
Definition tracked_prefix (keys : list string) (ts : list Q) (j : nat)
    (z : gmap string Q) : Prop :=
  size z = j
  ∧ ∀ k t, z !! k = Some t ↔ ∃ i, (i < j)%nat ∧ keys !! i = Some k ∧ ts !! i = Some t.

(** The text [get_key] puts after the namespace: a [str] as it is, [bytes]
    in base64. *)
Definition key_text (x : serialized) : string :=
  match x with
  | SStr s => s
  | SBytes b => b64encode b
  end.

(** The same request on the decorator with its offline flag set. *)
Definition offline_request (rq : request) : request :=
  {| req_fn := set_offline (req_fn rq); req_args := req_args rq;
     req_kwargs := req_kwargs rq |}.

Definition is_call (ev : event) : bool :=
  match ev with EvCall _ _ _ => true | _ => false end.

(** How many times a wrapped computation was invoked in a trace. *)
Definition calls_in (tr : list event) : nat := length (filter (fun ev => is_call ev = true) tr).

(** The decorator is [self0], up to its offline flag. *)
Definition same_entry (self0 self : CacheDecorator) : Prop :=
  self = self0 ∨ self = set_offline self0.

(** The decorator is offline, or [key] reads as a miss. *)
Definition reads_empty (key : string) (self : CacheDecorator) (w : world) : Prop :=
  offline self = true
  ∨ ∃ reply, stored (db (server w)) key reply ∧ falsy reply = true.

(** The world with [key] removed from the store. *)
Definition forget (key : string) (w : world) : world :=
  {| server := with_db (delete key (db (server w))) (server w); fault := fault w;
     round_trips := round_trips w; trace := trace w |}.

(** The same decorator with another deserializer. *)
Definition with_deserializer (f : string -> option pyobj) (self : CacheDecorator) : CacheDecorator :=
  {| prefix := prefix self; serializer := serializer self; deserializer := f;
     ttl := ttl self; limit := limit self; namespace := namespace self;
     keys_key := keys_key self; ismethod := ismethod self;
     original_fn := original_fn self; offline := offline self |}.

(** What the caller of the wrapped function gets. *)
Definition returned (res : exn + pyobj * CacheDecorator) : exn + pyobj :=
  match res with
  | inl e => inl e
  | inr (x, _) => inr x
  end.

(** * Sorted sets *)

Section zset.
Implicit Types (z : gmap string Q) (x m : string * Q).

Lemma zentry_leb_true x m : zentry_leb x m = true -> (x.2 <= m.2)%Q.
Proof.
  unfold zentry_leb. destruct (Qcompare_spec x.2 m.2) as [E|L|G]; intros H.
  - rewrite E. apply Qle_refl.
  - by apply Qlt_le_weak.
  - discriminate.
Qed.

Lemma zentry_leb_false x m : zentry_leb x m = false -> (m.2 <= x.2)%Q.
Proof.
  unfold zentry_leb. destruct (Qcompare_spec x.2 m.2) as [E|L|G]; intros H.
  - rewrite E. apply Qle_refl.
  - discriminate.
  - by apply Qlt_le_weak.
Qed.

Lemma zmin_foldr_None (l : list (string * Q)) : foldr zmin_step None l = None -> l = [].
Proof.
  destruct l as [|x l]; [done|]. simpl. unfold zmin_step at 1.
  destruct (foldr zmin_step None l); [|done]. by destruct (zentry_leb x p).
Qed.

Lemma zmin_foldr_Some (l : list (string * Q)) m :
  foldr zmin_step None l = Some m ->
  m ∈ l ∧ ∀ x, x ∈ l -> (m.2 <= x.2)%Q.
Proof.
  revert m. induction l as [|y l IH]; intros m; [done|]. simpl.
  destruct (foldr zmin_step None l) as [m0|] eqn:E; simpl.
  - destruct (IH m0 eq_refl) as [Hin Hle].
    destruct (zentry_leb y m0) eqn:C; intros [= <-].
    + split; [left|]. intros x [->|Hx]%elem_of_cons; [apply Qle_refl|].
      eapply Qle_trans; [by apply zentry_leb_true|by apply Hle].
    + split; [by right|]. intros x [->|Hx]%elem_of_cons; [|by apply Hle].
      by apply zentry_leb_false.
  - intros [= <-]. apply zmin_foldr_None in E as ->.
    split; [left|]. intros x [->|Hx]%elem_of_cons; [apply Qle_refl|].
    by apply elem_of_nil in Hx.
Qed.

Lemma zmin_None z : zmin z = None -> z = ∅.
Proof. intros H%zmin_foldr_None. by apply map_to_list_empty_iff. Qed.

Lemma zmin_Some z k sc :
  zmin z = Some (k, sc) ->
  z !! k = Some sc ∧ ∀ k' sc', z !! k' = Some sc' -> (sc <= sc')%Q.
Proof.
  intros [Hin Hle]%zmin_foldr_Some. split; [by apply elem_of_map_to_list|].
  intros k' sc' H'. by apply (Hle (k', sc')), elem_of_map_to_list.
Qed.

Lemma zmin_is_Some z : z ≠ ∅ -> is_Some (zmin z).
Proof.
  intros Hne. destruct (zmin z) eqn:E; [done|]. by apply zmin_None in E.
Qed.

(** What ZPOPMIN leaves and what it takes. *)
Lemma zpopmin_spec n z popped rest :
  zpopmin n z = (popped, rest) ->
  length popped = Nat.min n (size z)
  ∧ size rest = (size z - length popped)%nat
  ∧ (∀ k sc, rest !! k = Some sc -> z !! k = Some sc)
  ∧ (∀ k sc, (k, sc) ∈ popped -> z !! k = Some sc ∧ rest !! k = None)
  ∧ (∀ k sc, z !! k = Some sc -> rest !! k = None -> (k, sc) ∈ popped)
  ∧ (∀ k sc k' sc', (k, sc) ∈ popped -> rest !! k' = Some sc' -> (sc <= sc')%Q).
Proof.
  revert z popped rest. induction n as [|n IH]; intros z popped rest; simpl.
  { intros [= <- <-]. simpl. split_and!.
    all: try done.
    all: try lia.
    all: intros k sc.
    - intros H. by apply elem_of_nil in H.
    - intros H1 H2. congruence.
    - intros k' sc' H. by apply elem_of_nil in H. }
  destruct (zmin z) as [[m sc0]|] eqn:Hmin.
  - destruct (zpopmin n (delete m z)) as [popped' rest'] eqn:Hrec.
    intros [= <- <-].
    destruct (IH _ _ _ Hrec) as (Hlen & Hsz & Hsub & Hpop & Hcov & Hlow).
    destruct (zmin_Some _ _ _ Hmin) as [Hm Hleast].
    assert (Hsize : size z = S (size (delete m z))).
    { rewrite (map_size_delete_Some m z) by eauto.
      assert (size z ≠ 0%nat); [|lia].
      apply map_size_non_empty_iff. intros ->. by rewrite lookup_empty in Hm. }
    assert (Hrest_m : rest' !! m = None).
    { destruct (rest' !! m) as [q|] eqn:E; [|done].
      apply Hsub in E. by rewrite lookup_delete_eq in E. }
    split_and!.
    + simpl. rewrite Hlen, Hsize. lia.
    + simpl. rewrite Hsz, Hsize. lia.
    + intros k sc Hk. apply Hsub in Hk.
      apply lookup_delete_Some in Hk. tauto.
    + intros k sc [[= -> ->]|Hk]%elem_of_cons; [done|].
      destruct (Hpop _ _ Hk) as [H1 H2]. split; [|done].
      apply lookup_delete_Some in H1. tauto.
    + intros k sc Hk Hnone. destruct (decide (k = m)) as [->|Hne].
      * rewrite Hm in Hk. injection Hk as ->. left.
      * right. apply Hcov; [|done]. by rewrite lookup_delete_ne.
    + intros k sc k' sc' [[= -> ->]|Hk]%elem_of_cons Hk'.
      * apply Hleast with k'. apply Hsub in Hk'.
        apply lookup_delete_Some in Hk'. tauto.
      * by eapply Hlow.
  - intros [= <- <-]. apply zmin_None in Hmin as ->.
    rewrite map_size_empty. simpl. split_and!.
    all: try done.
    all: try lia.
    all: intros k sc; first [intros H|intros k' sc' H]; by apply elem_of_nil in H.
Qed.

Lemma delete_members_lookup (ms : list string) z k :
  delete_members ms z !! k = if decide (k ∈ ms) then None else z !! k.
Proof.
  induction ms as [|a ms IH].
  - case_decide as H; [|done]. by apply elem_of_nil in H.
  - change (delete_members (a :: ms) z) with (delete a (delete_members ms z)).
    destruct (decide (a = k)) as [->|Hne].
    + rewrite lookup_delete_eq.
      destruct (decide (k ∈ k :: ms)) as [|H]; [done|]. destruct H. left.
    + rewrite lookup_delete_ne by done. rewrite IH.
      destruct (decide (k ∈ ms)) as [Hin|Hnin];
        destruct (decide (k ∈ a :: ms)) as [Hin'|Hnin']; try done.
      * destruct Hnin'. by right.
      * apply elem_of_cons in Hin' as [->|?]; done.
Qed.

(** Removing what ZPOPMIN returned changes nothing. *)
Lemma delete_members_popped n z popped rest :
  zpopmin n z = (popped, rest) -> delete_members popped.*1 rest = rest.
Proof.
  intros H. apply zpopmin_spec in H as (_ & _ & _ & Hpop & _).
  apply map_eq. intros k. rewrite delete_members_lookup.
  destruct (decide (k ∈ popped.*1)) as [Hin|]; [|done].
  apply list_elem_of_fmap in Hin as ([k' sc] & -> & Hin).
  symmetry. by apply (Hpop k' sc).
Qed.

End zset.

Lemma delete_all_lookup (ks : list string) (d : gmap string rvalue) k :
  delete_all ks d !! k = if decide (k ∈ ks) then None else d !! k.
Proof.
  induction ks as [|a ks IH].
  - case_decide as H; [|done]. by apply elem_of_nil in H.
  - change (delete_all (a :: ks) d) with (delete a (delete_all ks d)).
    destruct (decide (a = k)) as [->|Hne].
    + rewrite lookup_delete_eq.
      destruct (decide (k ∈ k :: ks)) as [|H]; [done|]. destruct H. left.
    + rewrite lookup_delete_ne by done. rewrite IH.
      destruct (decide (k ∈ ks)) as [Hin|Hnin];
        destruct (decide (k ∈ a :: ks)) as [Hin'|Hnin']; try done.
      * destruct Hnin'. by right.
      * apply elem_of_cons in Hin' as [->|?]; done.
Qed.

(** * The Lua script *)

Section script.
Implicit Types (r : redis) (k zk v : string) (d : gmap string rvalue).

Lemma split_dot_uint (u : Decimal.uint) (s : string) :
  split_dot (NilEmpty.string_of_uint u +:+ "." +:+ s) = (NilEmpty.string_of_uint u, Some s).
Proof. induction u; simpl; [done|by rewrite IHu..]. Qed.

Lemma string_of_uint_nonempty (u : Decimal.uint) :
  u ≠ Decimal.Nil -> NilEmpty.string_of_uint u ≠ EmptyString.
Proof. by destruct u. Qed.

Lemma decimal_nonempty (n : N) : decimal n ≠ EmptyString.
Proof.
  apply string_of_uint_nonempty. destruct n as [|p]; [done|].
  apply DecimalPos.Unsigned.to_uint_nonnil.
Qed.

(** The script always gets a number out of TIME. *)
Lemma time_score_is_Some (t : N * N) : is_Some (time_score t).
Proof.
  unfold time_score, tonumber, decimal. rewrite split_dot_uint.
  rewrite !NilEmpty.usu.
  pose proof (decimal_nonempty t.1) as H. unfold decimal in H.
  destruct (NilEmpty.string_of_uint (N.to_uint t.1)); [done|eauto].
Qed.

Lemma redis_ZREM_nonempty zk (ms : list string) r :
  ms ≠ [] ->
  redis_ZREM zk ms r =
    match db r !! zk with
    | None => inr (0, r)
    | Some (RZSet z) =>
        let z' := delete_members ms z in
        inr (Z.of_nat (size z - size z'), with_db (put_zset zk z' (db r)) r)
    | Some (RString _ _) => inl WRONGTYPE
    end.
Proof. by destruct ms. Qed.

Lemma redis_DEL_nonempty (ks : list string) r :
  ks ≠ [] ->
  redis_DEL ks r =
    inr (Z.of_nat (size (db r) - size (delete_all ks (db r))),
         with_db (delete_all ks (db r)) r).
Proof. by destruct ks. Qed.

(** With [limit <= 0] the script is a plain SET or SETEX. *)
Lemma cache_lua_fn_untracked k zk v ttl limit r :
  limit <= 0 ->
  cache_lua_fn k zk v ttl limit r
  = (inr "OK", with_db (<[k := RString v (expiry ttl)]> (db r)) r).
Proof.
  intros Hl. unfold cache_lua_fn, expiry.
  assert ((0 <? limit)%Z = false) as -> by lia.
  unfold mbind, st_bind, mret, st_ret, step.
  by destruct (0 <? ttl)%Z.
Qed.

Lemma cache_lua_fn_tracked k zk v ttl limit r t :
  0 < limit -> k ≠ zk -> ¬ holds_string (db r) zk ->
  time_score (clock r (tick r)) = Some t ->
  cache_lua_fn k zk v ttl limit r
  = (inr "OK", {| db := tracked_db k zk v ttl limit t (db r);
                  clock := clock r; tick := S (tick r) |}).
Proof.
  intros Hl Hne Hns Ht. unfold cache_lua_fn, tracked_db.
  assert ((0 <? limit)%Z = true) as -> by lia.
  fold (expiry ttl).
  set (d1 := <[k := RString v (expiry ttl)]> (db r)).
  assert (Hd1 : d1 !! zk = db r !! zk) by (by apply lookup_insert_ne).
  set (z1 := <[k := t]> (zset_at (db r) zk)).
  assert (Hset : (if (0 <? ttl)%Z
                  then step (redis_SETEX k ttl v) else step (redis_SET k v)) r
                 = (inr "OK", with_db d1 r)).
  { unfold expiry in d1. subst d1. by destruct (0 <? ttl)%Z. }
  unfold mbind, st_bind at 1. rewrite Hset.
  unfold st_bind at 1. unfold st_bind at 1.
  unfold step at 1, redis_TIME. simpl.
  unfold time_score in Ht. destruct (clock r (tick r)) as [sec usec] eqn:Hclk.
  simpl in Ht. unfold lua_tonumber. simpl. rewrite Ht.
  unfold mret, st_ret. unfold st_bind at 1. unfold st_bind at 1.
  unfold step at 1, redis_ZADD. simpl. rewrite Hd1.
  assert (Hzadd : ∃ zadd_reply,
    match db r !! zk with
    | Some (RString _ _) => inl WRONGTYPE
    | Some (RZSet z) =>
        inr (if z !! k is Some _ then 0 else 1,
             with_db (<[zk := RZSet (<[k := t]> z)]> d1)
               {| db := d1; clock := clock r; tick := S (tick r) |})
    | None =>
        inr (1, with_db (<[zk := RZSet {[k := t]}]> d1)
                  {| db := d1; clock := clock r; tick := S (tick r) |})
    end = inr (zadd_reply, {| db := <[zk := RZSet z1]> d1; clock := clock r;
                              tick := S (tick r) |})).
  { subst z1. unfold zset_at. destruct (db r !! zk) as [[v0 e0|z]|] eqn:E.
    - destruct Hns. by exists v0, e0.
    - by eexists.
    - eexists. by rewrite insert_empty. }
  destruct Hzadd as [zadd_reply ->].
  unfold st_bind at 1. unfold step at 1, redis_ZCOUNT_all. simpl.
  rewrite lookup_insert_eq.
  destruct (0 <? Z.of_nat (size z1) - limit)%Z eqn:Hover; [|done].
  unfold st_bind at 1. unfold st_bind at 1.
  unfold step at 1, redis_ZPOPMIN. simpl. rewrite lookup_insert_eq.
  destruct (zpopmin (Z.to_nat (Z.of_nat (size z1) - limit)) z1)
    as [popped rest] eqn:Hpop.
  pose proof (zpopmin_spec _ _ _ _ Hpop) as (Hlen & Hsz & _).
  assert (Hrest : rest ≠ ∅).
  { apply map_size_non_empty_iff. lia. }
  assert (Hpopped : popped.*1 ≠ []).
  { destruct popped; [simpl in Hlen; lia|done]. }
  unfold put_zset at 1. rewrite decide_False by done. simpl.
  rewrite insert_insert_eq.
  unfold st_bind at 1. unfold step at 1.
  rewrite redis_ZREM_nonempty by done. simpl. rewrite lookup_insert_eq.
  rewrite (delete_members_popped _ _ _ _ Hpop).
  unfold put_zset. rewrite decide_False by done. simpl.
  rewrite insert_insert_eq.
  unfold step at 1.
  rewrite redis_DEL_nonempty by done. simpl.
  reflexivity.
Qed.

(** On any other tracking key ZADD is refused and the script stops. *)
Lemma cache_lua_fn_wrongtype k zk v ttl limit r :
  0 < limit -> k = zk ∨ holds_string (db r) zk ->
  (cache_lua_fn k zk v ttl limit r).1 = inl WRONGTYPE.
Proof.
  intros Hl Hbad. unfold cache_lua_fn.
  assert ((0 <? limit)%Z = true) as -> by lia.
  assert (Hset : ∃ e, (if (0 <? ttl)%Z
                  then step (redis_SETEX k ttl v) else step (redis_SET k v)) r
                 = (inr "OK", with_db (<[k := RString v e]> (db r)) r)).
  { destruct (0 <? ttl)%Z; by eexists. }
  destruct Hset as [e Hset].
  unfold mbind, st_bind at 1. rewrite Hset.
  unfold st_bind at 1. unfold st_bind at 1.
  unfold step at 1, redis_TIME. simpl.
  destruct (time_score_is_Some (clock r (tick r))) as [t Ht].
  unfold time_score in Ht. destruct (clock r (tick r)) as [sec usec] eqn:Hclk.
  simpl in Ht. unfold lua_tonumber. simpl. rewrite Ht.
  unfold mret, st_ret. unfold st_bind at 1. unfold st_bind at 1.
  unfold step at 1, redis_ZADD. simpl.
  assert (∃ v0 e0, <[k := RString v e]> (db r) !! zk = Some (RString v0 e0))
    as (v0 & e0 & ->); [|done].
  destruct Hbad as [<-|(v0 & e0 & H)].
  - exists v, e. by rewrite lookup_insert_eq.
  - destruct (decide (k = zk)) as [<-|Hne].
    + exists v, e. by rewrite lookup_insert_eq.
    + exists v0, e0. by rewrite lookup_insert_ne.
Qed.

End script.

Section tracking.
Implicit Types (r : redis) (k zk v : string) (d : gmap string rvalue).

(** The store after a tracked write, key by key: [popped] are the evicted
    entries, [rest] the sorted set that is left. *)
Lemma tracked_db_lookup k zk v ttl limit t d popped rest x :
  zpopmin (Z.to_nat (Z.of_nat (size (<[k := t]> (zset_at d zk))) - limit))
          (<[k := t]> (zset_at d zk)) = (popped, rest) ->
  tracked_db k zk v ttl limit t d !! x =
    if decide (x ∈ popped.*1) then None
    else if decide (x = zk) then Some (RZSet rest)
    else if decide (x = k) then Some (RString v (expiry ttl))
    else d !! x.
Proof.
  intros Hpop. unfold tracked_db.
  set (z1 := <[k := t]> (zset_at d zk)) in *.
  destruct (0 <? Z.of_nat (size z1) - limit)%Z eqn:Hover.
  - rewrite Hpop. rewrite delete_all_lookup.
    destruct (decide (x ∈ popped.*1)); [done|].
    rewrite insert_insert_eq.
    destruct (decide (x = zk)) as [->|Hzk]; [by rewrite lookup_insert_eq|].
    rewrite lookup_insert_ne by done.
    destruct (decide (x = k)) as [->|Hk]; [by rewrite lookup_insert_eq|].
    by rewrite lookup_insert_ne.
  - assert (Z.to_nat (Z.of_nat (size z1) - limit) = 0%nat) as Hz by lia.
    rewrite Hz in Hpop. simpl in Hpop. injection Hpop as <- <-. simpl.
    destruct (decide (x = zk)) as [->|Hzk]; [by rewrite lookup_insert_eq|].
    rewrite lookup_insert_ne by done.
    destruct (decide (x = k)) as [->|Hk]; [by rewrite lookup_insert_eq|].
    by rewrite lookup_insert_ne.
Qed.

Lemma zset_at_tracked_db k zk v ttl limit t d popped rest :
  zpopmin (Z.to_nat (Z.of_nat (size (<[k := t]> (zset_at d zk))) - limit))
          (<[k := t]> (zset_at d zk)) = (popped, rest) ->
  zset_at (tracked_db k zk v ttl limit t d) zk
  = if decide (zk ∈ popped.*1) then ∅ else rest.
Proof.
  intros Hpop. unfold zset_at at 1.
  rewrite (tracked_db_lookup _ _ _ _ _ _ _ _ _ _ Hpop).
  destruct (decide (zk ∈ popped.*1)); [done|]. by rewrite decide_True.
Qed.

End tracking.

(** * Claims about the atomic write *)

(** C3. For every store and every run of the script with [limit > 0]: the
    script completes whenever the tracking key is free or holds a sorted set
    (and is not the primary key); and once it has completed, the tracking set
    has at most [limit] members, what is left of it was there after the new
    member was added, and every member that was removed had a score no higher
    than any member that was kept. *)
Theorem atomic_write_bounds_tracking_set (k zk v : string) (ttl limit : Z) (r : redis) :
  0 < limit ->
  (k ≠ zk -> ¬ holds_string (db r) zk ->
   (cache_lua_fn k zk v ttl limit r).1 = inr "OK")
  ∧ ∀ reply r',
      cache_lua_fn k zk v ttl limit r = (inr reply, r') ->
      ∃ t, time_score (clock r (tick r)) = Some t ∧
        let added := <[k := t]> (zset_at (db r) zk) in
        let kept := zset_at (db r') zk in
        Z.of_nat (zcard (db r') zk) <= limit
        ∧ (∀ m sc, kept !! m = Some sc -> added !! m = Some sc)
        ∧ (∀ m sc m' sc',
             added !! m = Some sc -> kept !! m = None ->
             kept !! m' = Some sc' -> (sc <= sc')%Q).
Proof.
  intros Hl. destruct (time_score_is_Some (clock r (tick r))) as [t Ht].
  split.
  { intros Hne Hns. by rewrite (cache_lua_fn_tracked _ _ _ _ _ _ t). }
  intros reply r' Hrun. exists t. split; [done|].
  assert (Hne : k ≠ zk).
  { intros ->. pose proof (cache_lua_fn_wrongtype zk zk v ttl limit r Hl) as H.
    rewrite Hrun in H. by specialize (H (or_introl eq_refl)). }
  assert (Hns : ¬ holds_string (db r) zk).
  { intros Hs. pose proof (cache_lua_fn_wrongtype k zk v ttl limit r Hl) as H.
    rewrite Hrun in H. by specialize (H (or_intror Hs)). }
  rewrite (cache_lua_fn_tracked _ _ _ _ _ _ t) in Hrun by done.
  injection Hrun as _ <-. simpl. unfold zcard.
  set (z1 := <[k := t]> (zset_at (db r) zk)).
  destruct (zpopmin (Z.to_nat (Z.of_nat (size z1) - limit)) z1)
    as [popped rest] eqn:Hpop.
  rewrite (zset_at_tracked_db _ _ _ _ _ _ _ _ _ Hpop).
  destruct (zpopmin_spec _ _ _ _ Hpop) as (Hlen & Hsz & Hsub & Hpopped & Hcov & Hlow).
  destruct (decide (zk ∈ popped.*1)).
  - rewrite map_size_empty. split_and!; [lia|..].
    + intros m sc H. by rewrite lookup_empty in H.
    + intros m sc m' sc' _ _ H. by rewrite lookup_empty in H.
  - split_and!; [lia|done|].
    intros m sc m' sc' Hm Hgone Hm'. apply (Hlow m sc m' sc'); [|done].
    by apply Hcov.
Qed.

(** * The wrapped call *)

Section inner.
Implicit Types (self : CacheDecorator) (args : pyargs) (kwargs : pykwargs) (w : world).

Lemma client_get_ok key w reply :
  fault w (round_trips w) = None -> stored (db (server w)) key reply ->
  client_get key w = (inr reply, after_round_trip (EvSend (GET key)) (server w) w).
Proof.
  intros Hf Hs. unfold client_get, round_trip, step, redis_GET. rewrite Hf.
  destruct reply as [v|]; simpl in Hs.
  - destruct Hs as [e ->]. done.
  - by rewrite Hs.
Qed.

Lemma client_get_fault key w e :
  fault w (round_trips w) = Some e ->
  client_get key w = (inl e, after_round_trip (EvSend (GET key)) (server w) w).
Proof. intros Hf. unfold client_get, round_trip. by rewrite Hf. Qed.

Lemma inner_offline self args kwargs w :
  offline self = true ->
  inner self args kwargs w
  = (inr (computed self args kwargs, self), logged (call_event self args kwargs) w).
Proof. intros Ho. unfold inner. by rewrite Ho. Qed.

Lemma inner_get_connection_error self args kwargs key w :
  offline self = false -> inner_key self args kwargs = inr key ->
  fault w (round_trips w) = Some ConnectionError ->
  inner self args kwargs w
  = (inr (computed self args kwargs, set_offline self),
     logged (call_event self args kwargs)
            (after_round_trip (EvSend (GET key)) (server w) w)).
Proof.
  intros Ho Hk Hf. unfold inner. rewrite Ho. unfold inner_key in Hk. rewrite Hk.
  unfold mbind, st_bind at 1, of_sum, try_except_ConnectionError.
  by rewrite (client_get_fault _ _ _ Hf).
Qed.

Lemma inner_get_other_error self args kwargs key w e :
  offline self = false -> inner_key self args kwargs = inr key ->
  fault w (round_trips w) = Some e -> e ≠ ConnectionError ->
  inner self args kwargs w
  = (inl e, after_round_trip (EvSend (GET key)) (server w) w).
Proof.
  intros Ho Hk Hf He. unfold inner. rewrite Ho. unfold inner_key in Hk. rewrite Hk.
  unfold mbind, st_bind at 1, of_sum, try_except_ConnectionError.
  rewrite (client_get_fault _ _ _ Hf). by destruct e.
Qed.

Lemma inner_hit self args kwargs key w v :
  offline self = false -> inner_key self args kwargs = inr key ->
  fault w (round_trips w) = None ->
  stored (db (server w)) key (Some v) -> v ≠ EmptyString ->
  inner self args kwargs w
  = (match deserializer self v with
     | Some x => inr (x, self)
     | None => inl CodecError
     end, after_round_trip (EvSend (GET key)) (server w) w).
Proof.
  intros Ho Hk Hf Hs Hv. unfold inner. rewrite Ho. unfold inner_key in Hk. rewrite Hk.
  unfold mbind, st_bind at 1, of_sum, try_except_ConnectionError.
  rewrite (client_get_ok _ _ _ Hf Hs).
  assert (falsy (Some v) = false) as -> by (by destruct v).
  simpl. unfold st_bind, codec. by destruct (deserializer self v).
Qed.

Lemma inner_miss self args kwargs key w reply :
  offline self = false -> inner_key self args kwargs = inr key ->
  fault w (round_trips w) = None ->
  stored (db (server w)) key reply -> falsy reply = true ->
  inner self args kwargs w
  = (result_serialized ← codec (serializer self (computed self args kwargs));
     _ ← call_lua_fn key (keys_key self) (wire result_serialized)
                     (ttl self) (limit self);
     mret (computed self args kwargs, self))
      (logged (call_event self args kwargs)
              (after_round_trip (EvSend (GET key)) (server w) w)).
Proof.
  intros Ho Hk Hf Hs Hv. unfold inner. rewrite Ho. unfold inner_key in Hk. rewrite Hk.
  unfold mbind at 1, st_bind at 1, of_sum, try_except_ConnectionError.
  rewrite (client_get_ok _ _ _ Hf Hs). rewrite Hv. reflexivity.
Qed.

Lemma inner_all_offline self (calls : list (pyargs * pykwargs)) w :
  offline self = true ->
  inner_all self calls w
  = (inr ((fun c => computed self c.1 c.2) <$> calls, self),
     {| server := server w; fault := fault w; round_trips := round_trips w;
        trace := trace w ++ ((fun c => call_event self c.1 c.2) <$> calls) |}).
Proof.
  intros Ho. revert w. induction calls as [|[args kwargs] calls IH]; intros w.
  - simpl. unfold mret, st_ret. rewrite app_nil_r. by destruct w.
  - simpl. unfold mbind, st_bind. rewrite (inner_offline _ _ _ _ Ho).
    rewrite IH. simpl. unfold mret, st_ret. by rewrite <- app_assoc.
Qed.

End inner.

(** C4. Once GET has raised a connection error during a call, the decorator
    is offline; every later call on it returns what the wrapped computation
    returns and adds to the trace only the invocations of that computation:
    the server is as it was and no round trip is made. *)
Theorem offline_is_sticky (self : CacheDecorator) (args : pyargs) (kwargs : pykwargs)
    (key : string) (w : world) (calls : list (pyargs * pykwargs)) :
  offline self = false ->
  inner_key self args kwargs = inr key ->
  fault w (round_trips w) = Some ConnectionError ->
  ∃ self1 w1,
    inner self args kwargs w = (inr (computed self args kwargs, self1), w1)
    ∧ offline self1 = true
    ∧ inner_all self1 calls w1
      = (inr ((fun c => computed self c.1 c.2) <$> calls, self1),
         {| server := server w1; fault := fault w1; round_trips := round_trips w1;
            trace := trace w1 ++ ((fun c => call_event self c.1 c.2) <$> calls) |}).
Proof.
  intros Ho Hk Hf. eexists _, _. split_and!.
  - by apply inner_get_connection_error.
  - done.
  - by rewrite inner_all_offline.
Qed.

(** * Batch fetch *)

Section mget.
Implicit Types (self : RedisCache) (reqs : list request) (keys : list string) (w : world).

Lemma mget_keys_spec reqs keys :
  mget_keys reqs = inr keys ->
  Forall2 (fun rq key => get_key (req_fn rq) (args_of rq) (kwargs_of rq) = inr key)
          reqs keys.
Proof.
  revert keys. induction reqs as [|rq reqs IH]; intros keys; simpl.
  - intros [= <-]. constructor.
  - destruct (get_key _ _ _) as [e|key] eqn:Hk; [done|].
    destruct (mget_keys reqs) as [e|keys']; [done|].
    intros [= <-]. constructor; [done|by apply IH].
Qed.

Lemma mget_keys_length reqs keys :
  mget_keys reqs = inr keys -> length keys = length reqs.
Proof. intros H%mget_keys_spec. symmetry. by eapply Forall2_length. Qed.

Lemma drop_cons_lookup {A} (l : list A) i x l' :
  drop i l = x :: l' -> l !! i = Some x ∧ drop (S i) l = l'.
Proof.
  intros H. split.
  - pose proof (lookup_drop l i 0) as E. rewrite H, Nat.add_0_r in E. by symmetry.
  - pose proof (drop_drop l 1 i) as E. rewrite H, Nat.add_1_r in E. by symmetry.
Qed.

(** The loop from index [i] on, when the codec raises on nothing it meets:
    one result per reply in order, one invocation and one queued write per
    absent key in order, and nothing sent to the server. *)
Lemma mget_loop_spec self reqs keys d (ks : list string) :
  ∀ (rqs : list request) i acc w rs,
    drop i reqs = rqs -> drop i keys = ks -> length rqs = length ks ->
    Forall2 (fun p r => expected_item self d p.1 p.2 = Some r) (zip rqs ks) rs ->
    mget_loop self reqs keys i (mget_one d <$> ks) acc w
    = (inr (acc.1.1 ++ rs,
            acc.1.2 || existsb (is_miss d) ks,
            acc.2 ++ concat (miss_write self d <$> zip rqs ks)),
       {| server := server w; fault := fault w; round_trips := round_trips w;
          trace := trace w ++ concat (miss_call d <$> zip rqs ks) |}).
Proof.
  induction ks as [|key ks IH]; intros rqs i [[out needs] pipe] w rs Hr Hk Hlen Hrs.
  - destruct rqs; [|done]. inversion Hrs; subst. simpl.
    unfold mret, st_ret. rewrite !app_nil_r, orb_false_r. by destruct w.
  - destruct rqs as [|rq rqs]; [done|]. simpl in Hlen.
    inversion Hrs as [|p r ps rs' Hitem Hrest]; subst. simpl in Hitem.
    destruct (drop_cons_lookup _ _ _ _ Hr) as [Hrq Hr'].
    destruct (drop_cons_lookup _ _ _ _ Hk) as [Hkey Hk'].
    unfold expected_item in Hitem.
    change (zip (rq :: rqs) (key :: ks)) with ((rq, key) :: zip rqs ks).
    rewrite !fmap_cons. simpl concat. simpl existsb.
    unfold miss_call at 1, miss_write at 1. simpl fst. simpl snd.
    simpl mget_loop.
    destruct (mget_one d key) as [v|] eqn:Hone.
    + assert (is_miss d key = false) as -> by (unfold is_miss; by rewrite Hone).
      unfold mbind, st_bind at 1. unfold st_bind at 1, codec. rewrite Hitem.
      unfold mret at 1, st_ret at 1. unfold mret at 1, st_ret at 1.
      erewrite IH; [|done..|lia|done]. simpl.
      by rewrite <- !app_assoc.
    + assert (is_miss d key = true) as -> by (unfold is_miss; by rewrite Hone).
      rewrite Hrq, Hkey.
      unfold computed in Hitem. unfold computed.
      destruct (rc_serializer self _) as [s|] eqn:Hser; [|done].
      injection Hitem as <-.
      unfold mbind, st_bind at 1. unfold st_bind at 1, call_fn.
      unfold mbind, st_bind at 1, log. unfold mret at 1, st_ret at 1.
      unfold st_bind at 1, codec. rewrite Hser.
      unfold mret at 1, st_ret at 1. unfold mret at 1, st_ret at 1.
      erewrite IH; [|done..|lia|done]. simpl.
      by rewrite orb_true_r, <- !app_assoc.
Qed.

(** [mget] up to the pipeline: one MGET, then the loop. *)
Lemma mget_run self reqs keys results w :
  mget_keys reqs = inr keys ->
  fault w (round_trips w) = None ->
  Forall2 (fun p r => expected_item self (db (server w)) p.1 p.2 = Some r)
          (zip reqs keys) results ->
  let d := db (server w) in
  let w2 := {| server := server w; fault := fault w;
               round_trips := S (round_trips w);
               trace := (trace w ++ [EvSend (MGET keys)])
                        ++ concat (miss_call d <$> zip reqs keys) |} in
  mget self reqs w
  = if existsb (is_miss d) keys
    then (pipeline_execute (concat (miss_write self d <$> zip reqs keys)) ;;
          mret results) w2
    else (inr results, w2).
Proof.
  intros Hkeys Hf Hrs d w2. unfold mget. rewrite Hkeys.
  unfold mbind at 1, st_bind at 1, of_sum.
  unfold mbind at 1, st_bind at 1, client_mget, round_trip. rewrite Hf.
  unfold step, redis_MGET.
  unfold mbind at 1, st_bind at 1.
  erewrite (mget_loop_spec self reqs keys d keys reqs 0); [|done..| |done].
  2: { symmetry. by apply mget_keys_length. }
  simpl. by destruct (existsb (is_miss d) keys).
Qed.

End mget.

(** C6. [mget] on a list of requests sends one MGET for all the keys; for
    the absent keys it invokes the computations in index order; it then
    executes the pipeline once when some key was absent and not at all
    otherwise; and it returns, index by index, the decoded stored value or the
    fresh result.  (The store is reachable, the codec of the [RedisCache]
    accepts the values it meets and no queued write gets an error reply.) *)
Theorem mget_preserves_order (self : RedisCache) (reqs : list request)
    (keys : list string) (results : list pyobj) (w : world) :
  let d := db (server w) in
  let writes := concat (miss_write self d <$> zip reqs keys) in
  let some_miss := existsb (is_miss d) keys in
  mget_keys reqs = inr keys ->
  fault w (round_trips w) = None ->
  Forall2 (fun p r => expected_item self d p.1 p.2 = Some r) (zip reqs keys) results ->
  (some_miss = true ->
   fault w (S (round_trips w)) = None ∧ (run_pipeline writes (server w)).1 = inr ()) ->
  ∃ w',
    mget self reqs w = (inr results, w')
    ∧ length results = length reqs
    ∧ trace w' = trace w ++ [EvSend (MGET keys)]
                 ++ concat (miss_call d <$> zip reqs keys)
                 ++ (if some_miss then [EvExecute writes] else [])
    ∧ round_trips w' = (round_trips w + if some_miss then 2 else 1)%nat.
Proof.
  intros d writes some_miss Hkeys Hf Hrs Hpipe.
  assert (Hlen : length results = length reqs).
  { apply Forall2_length in Hrs. rewrite <- Hrs, length_zip.
    apply mget_keys_length in Hkeys. lia. }
  rewrite (mget_run self reqs keys results w Hkeys Hf Hrs).
  fold d. fold some_miss. fold writes. destruct some_miss eqn:Hmiss.
  - destruct (Hpipe eq_refl) as [Hf2 Hok].
    unfold mbind, st_bind, pipeline_execute, round_trip. simpl. rewrite Hf2.
    destruct (run_pipeline writes (server w)) as [res srv] eqn:Hrun.
    simpl in Hok. subst res. eexists. split; [reflexivity|]. simpl.
    split_and!; [done| |lia]. by rewrite <- !app_assoc.
  - eexists. split; [reflexivity|]. simpl.
    split_and!; [done| |lia]. by rewrite app_nil_r, <- !app_assoc.
Qed.

(** * Failures of the store *)

(** C5. A connection error raised by GET in the wrapped call does not reach
    the caller: the call returns the computed result and leaves the decorator
    offline.  Whatever the store raises in the atomic write after a miss, in
    the MGET or the pipeline of [mget], in the pipeline of [invalidate], or in
    the ZRANGE or the DEL of [invalidate_all], is raised to the caller. *)
Theorem store_failure_caught_only_on_get :
  (∀ self args kwargs key w,
     offline self = false -> inner_key self args kwargs = inr key ->
     fault w (round_trips w) = Some ConnectionError ->
     (inner self args kwargs w).1 = inr (computed self args kwargs, set_offline self))
  ∧ (∀ self args kwargs key w reply s e,
       offline self = false -> inner_key self args kwargs = inr key ->
       fault w (round_trips w) = None ->
       stored (db (server w)) key reply -> falsy reply = true ->
       serializer self (computed self args kwargs) = Some s ->
       fault w (S (round_trips w)) = Some e ->
       (inner self args kwargs w).1 = inl e)
  ∧ (∀ (self : RedisCache) reqs keys w e,
       mget_keys reqs = inr keys ->
       fault w (round_trips w) = Some e ->
       (mget self reqs w).1 = inl e)
  ∧ (∀ (self : RedisCache) reqs keys results w e,
       mget_keys reqs = inr keys ->
       fault w (round_trips w) = None ->
       Forall2 (fun p r => expected_item self (db (server w)) p.1 p.2 = Some r)
               (zip reqs keys) results ->
       existsb (is_miss (db (server w))) keys = true ->
       fault w (S (round_trips w)) = Some e ->
       (mget self reqs w).1 = inl e)
  ∧ (∀ self args kwargs key w e,
       get_key self args kwargs = inr key ->
       fault w (round_trips w) = Some e ->
       (invalidate self args kwargs w).1 = inl e)
  ∧ (∀ self w e,
       fault w (round_trips w) = Some e ->
       (invalidate_all self w).1 = inl e)
  ∧ (∀ self w e,
       fault w (round_trips w) = None ->
       ¬ holds_string (db (server w)) (keys_key self) ->
       fault w (S (round_trips w)) = Some e ->
       (invalidate_all self w).1 = inl e).
Proof.
  split_and!.
  - intros self args kwargs key w Ho Hk Hf.
    by rewrite (inner_get_connection_error _ _ _ _ _ Ho Hk Hf).
  - intros self args kwargs key w reply s e Ho Hk Hf Hs Hm Hser Hf2.
    rewrite (inner_miss _ _ _ _ _ _ Ho Hk Hf Hs Hm). rewrite Hser.
    unfold mbind, st_bind, codec, mret, st_ret, call_lua_fn, round_trip.
    simpl. by rewrite Hf2.
  - intros self reqs keys w e Hkeys Hf. unfold mget. rewrite Hkeys.
    unfold mbind, st_bind, of_sum, client_mget, round_trip. by rewrite Hf.
  - intros self reqs keys results w e Hkeys Hf Hrs Hmiss Hf2.
    rewrite (mget_run self reqs keys results w Hkeys Hf Hrs). rewrite Hmiss.
    unfold mbind, st_bind, pipeline_execute, round_trip. simpl. by rewrite Hf2.
  - intros self args kwargs key w e Hk Hf. unfold invalidate. rewrite Hk.
    unfold mbind, st_bind, of_sum, pipeline_execute, round_trip. by rewrite Hf.
  - intros self w e Hf. unfold invalidate_all.
    unfold mbind, st_bind, client_zrange_all, round_trip. by rewrite Hf.
  - intros self w e Hf Hns Hf2. unfold invalidate_all.
    unfold mbind, st_bind, client_zrange_all, client_delete, round_trip.
    rewrite Hf. unfold step at 1, redis_ZRANGE_all.
    destruct (db (server w) !! keys_key self) as [[v0 e0|z]|] eqn:E.
    + destruct Hns. by exists v0, e0.
    + simpl. by rewrite Hf2.
    + simpl. by rewrite Hf2.
Qed.

(** * Hits and misses of the wrapped call *)

(** After the script the primary key holds the value just written, unless
    the eviction pass of the same run removed it. *)
Lemma cache_lua_fn_primary (k zk v : string) (ttl limit : Z) (r r' : redis) reply :
  cache_lua_fn k zk v ttl limit r = (inr reply, r') ->
  db r' !! k = None ∨ db r' !! k = Some (RString v (expiry ttl)).
Proof.
  intros Hrun. destruct (Z_lt_le_dec 0 limit) as [Hl|Hl].
  - assert (Hne : k ≠ zk).
    { intros ->. pose proof (cache_lua_fn_wrongtype zk zk v ttl limit r Hl) as H.
      rewrite Hrun in H. by specialize (H (or_introl eq_refl)). }
    assert (Hns : ¬ holds_string (db r) zk).
    { intros Hs. pose proof (cache_lua_fn_wrongtype k zk v ttl limit r Hl) as H.
      rewrite Hrun in H. by specialize (H (or_intror Hs)). }
    destruct (time_score_is_Some (clock r (tick r))) as [t Ht].
    rewrite (cache_lua_fn_tracked _ _ _ _ _ _ t) in Hrun by done.
    injection Hrun as _ <-. simpl.
    destruct (zpopmin (Z.to_nat (Z.of_nat (size (<[k := t]> (zset_at (db r) zk))) - limit))
                      (<[k := t]> (zset_at (db r) zk))) as [popped rest] eqn:Hpop.
    rewrite (tracked_db_lookup _ _ _ _ _ _ _ _ _ _ Hpop).
    destruct (decide (k ∈ popped.*1)); [by left|].
    rewrite decide_False by done. rewrite decide_True by done. by right.
  - rewrite cache_lua_fn_untracked in Hrun by done.
    injection Hrun as _ <-. simpl. right. by rewrite lookup_insert_eq.
Qed.

(** C1 (as amended). In online mode, when a call misses, computes [r] and
    stores it, when the deserializer inverts the serializer on [r] and the
    serialized form of [r] is not empty, then a later call with the same
    arguments, made while the key still holds what was stored, returns [r]
    after a single GET, without invoking the computation. *)
Theorem hit_after_miss (self : CacheDecorator) (args : pyargs) (kwargs : pykwargs)
    (key : string) (reply : option string) (s : serialized)
    (out : pyobj * CacheDecorator) (w w1 w2 : world) :
  let r := computed self args kwargs in
  offline self = false ->
  inner_key self args kwargs = inr key ->
  fault w (round_trips w) = None ->
  stored (db (server w)) key reply -> falsy reply = true ->
  inner self args kwargs w = (inr out, w1) ->
  serializer self r = Some s -> deserializer self (wire s) = Some r ->
  wire s ≠ EmptyString ->
  is_Some (db (server w1) !! key) ->
  db (server w2) !! key = db (server w1) !! key ->
  fault w2 (round_trips w2) = None ->
  out = (r, self)
  ∧ inner self args kwargs w2
    = (inr (r, self), after_round_trip (EvSend (GET key)) (server w2) w2).
Proof.
  intros r Ho Hk Hf Hs Hm Hrun Hser Hdes Hne Hkept Hsame Hf2.
  rewrite (inner_miss _ _ _ _ _ _ Ho Hk Hf Hs Hm) in Hrun.
  fold r in Hrun. rewrite Hser in Hrun.
  unfold mbind, st_bind, codec, mret, st_ret, call_lua_fn, round_trip in Hrun.
  simpl in Hrun.
  destruct (fault w (S (round_trips w))); [done|].
  destruct (cache_lua_fn key (keys_key self) (wire s) (ttl self) (limit self) (server w))
    as [[e|rep] srv] eqn:Hlua; [done|].
  injection Hrun as <- <-. split; [done|].
  simpl in Hkept, Hsame.
  destruct (cache_lua_fn_primary _ _ _ _ _ _ _ _ Hlua) as [Hnone|Hval].
  { rewrite Hnone in Hkept. by destruct Hkept. }
  rewrite Hval in Hsame.
  rewrite (inner_hit self args kwargs key w2 (wire s)); try done.
  - fold r. by rewrite Hdes.
  - by eexists.
Qed.

Section empty_value.
Variables (self0 : CacheDecorator) (args : pyargs) (kwargs : pykwargs)
          (key : string) (s : serialized).
Hypothesis Hkey : inner_key self0 args kwargs = inr key.
Hypothesis Hser : serializer self0 (computed self0 args kwargs) = Some s.
Hypothesis Hempty : wire s = EmptyString.

#[local] Abbreviation same_entry := (same_entry self0).
#[local] Abbreviation reads_empty := (reads_empty key).

Lemma calls_in_snoc_call tr fn a kw :
  calls_in (tr ++ [EvCall fn a kw]) = S (calls_in tr).
Proof.
  unfold calls_in. rewrite filter_app, length_app.
  rewrite filter_cons_True by done. simpl. lia.
Qed.

Lemma calls_in_snoc_send tr c : calls_in (tr ++ [EvSend c]) = calls_in tr.
Proof.
  unfold calls_in. rewrite filter_app, length_app.
  rewrite filter_cons_False by done. simpl. lia.
Qed.

Lemma same_entry_facts self :
  same_entry self ->
  inner_key self args kwargs = inr key
  ∧ serializer self (computed self args kwargs) = Some s
  ∧ keys_key self = keys_key self0.
Proof. by intros [->| ->]. Qed.

(** One call on an entry whose encoding is empty invokes the computation
    and leaves the key reading as a miss. *)
Lemma inner_empty_step self w out self' w' :
  same_entry self -> reads_empty self w ->
  inner self args kwargs w = (inr (out, self'), w') ->
  same_entry self' ∧ reads_empty self' w'
  ∧ calls_in (trace w') = S (calls_in (trace w)).
Proof.
  intros Hsame Hinv Hrun.
  destruct (same_entry_facts _ Hsame) as (Hk & Hs & _).
  destruct (offline self) eqn:Ho.
  { rewrite (inner_offline _ _ _ _ Ho) in Hrun. injection Hrun as <- <- <-.
    split_and!; [done|by left|]. apply calls_in_snoc_call. }
  destruct Hinv as [Hoff|(reply & Hst & Hfalsy)]; [congruence|].
  destruct (fault w (round_trips w)) as [e|] eqn:Hf.
  - destruct (decide (e = ConnectionError)) as [->|Hne].
    + rewrite (inner_get_connection_error _ _ _ _ _ Ho Hk Hf) in Hrun.
      injection Hrun as <- <- <-. split_and!.
      * destruct Hsame as [->| ->]; by right.
      * by left.
      * simpl. unfold call_event. by rewrite calls_in_snoc_call, calls_in_snoc_send.
    + by rewrite (inner_get_other_error _ _ _ _ _ _ Ho Hk Hf Hne) in Hrun.
  - rewrite (inner_miss _ _ _ _ _ _ Ho Hk Hf Hst Hfalsy) in Hrun.
    rewrite Hs in Hrun.
    unfold mbind, st_bind, codec, mret, st_ret, call_lua_fn, round_trip in Hrun.
    simpl in Hrun.
    destruct (fault w (S (round_trips w))); [done|].
    destruct (cache_lua_fn key (keys_key self) (wire s) (ttl self) (limit self) (server w))
      as [[e|rep] srv] eqn:Hlua; [done|].
    injection Hrun as <- <- <-. split_and!; [done| |].
    + right. simpl. rewrite Hempty in Hlua.
      destruct (cache_lua_fn_primary _ _ _ _ _ _ _ _ Hlua) as [Hnone|Hval].
      * by exists None.
      * exists (Some EmptyString). split; [by eexists|done].
    + simpl. unfold call_event. by rewrite calls_in_snoc_send, calls_in_snoc_call, calls_in_snoc_send.
Qed.

Lemma inner_all_empty (n : nat) :
  ∀ self w outs self' w',
    same_entry self -> reads_empty self w ->
    inner_all self (replicate n (args, kwargs)) w = (inr (outs, self'), w') ->
    calls_in (trace w') = (calls_in (trace w) + n)%nat.
Proof.
  induction n as [|n IH]; intros self w outs self' w' Hsame Hinv Hrun; simpl in Hrun.
  - injection Hrun as _ _ <-. lia.
  - unfold mbind, st_bind in Hrun.
    destruct (inner self args kwargs w) as [[e|[out self1]] w1] eqn:H1; [done|].
    destruct (inner_empty_step _ _ _ _ _ Hsame Hinv H1) as (Hsame1 & Hinv1 & Hc).
    destruct (inner_all self1 (replicate n (args, kwargs)) w1)
      as [[e|[outs1 self2]] w2] eqn:H2; [done|].
    injection Hrun as _ _ <-.
    rewrite (IH _ _ _ _ _ Hsame1 Hinv1 H2). lia.
Qed.

End empty_value.

(** The script overwrites the primary key whatever it held. *)
Lemma cache_lua_fn_forget (k zk v : string) (ttl limit : Z) (r : redis) :
  cache_lua_fn k zk v ttl limit (with_db (delete k (db r)) r)
  = cache_lua_fn k zk v ttl limit r.
Proof.
  unfold cache_lua_fn. unfold mbind at 1 3, st_bind at 1 3.
  destruct (0 <? ttl)%Z; unfold step at 1 3, redis_SET, redis_SETEX, with_db; simpl;
    by rewrite insert_delete_eq.
Qed.

(** C9. In online mode, when GET answers an empty string for the key, the
    call goes the way of a miss: after the GET it invokes the computation,
    serializes the result and runs the atomic write with it, and returns the
    computed result.  The outcome is the one the call has when the key is
    absent, and it does not depend on the deserializer.  When the serialized
    form of the result is itself empty, each of [n] calls in a row invokes the
    computation. *)
Theorem empty_value_is_a_miss (self : CacheDecorator) (args : pyargs) (kwargs : pykwargs)
    (key : string) (e0 : option Z) (s : serialized) (w : world) :
  let r := computed self args kwargs in
  offline self = false ->
  inner_key self args kwargs = inr key ->
  fault w (round_trips w) = None ->
  db (server w) !! key = Some (RString EmptyString e0) ->
  serializer self r = Some s ->
  inner self args kwargs w
  = (_ ← call_lua_fn key (keys_key self) (wire s) (ttl self) (limit self);
     mret (r, self))
      (logged (call_event self args kwargs)
              (after_round_trip (EvSend (GET key)) (server w) w))
  ∧ ((inner self args kwargs w).1 = (inner self args kwargs (forget key w)).1
     ∧ trace (inner self args kwargs w).2 = trace (inner self args kwargs (forget key w)).2
     ∧ (fault w (S (round_trips w)) = None ->
        inner self args kwargs w = inner self args kwargs (forget key w)))
  ∧ (∀ f,
       returned (inner (with_deserializer f self) args kwargs w).1
       = returned (inner self args kwargs w).1
       ∧ (inner (with_deserializer f self) args kwargs w).2 = (inner self args kwargs w).2)
  ∧ (wire s = EmptyString ->
     ∀ n outs self' w',
       inner_all self (replicate n (args, kwargs)) w = (inr (outs, self'), w') ->
       calls_in (trace w') = (calls_in (trace w) + n)%nat).
Proof.
  intros r Ho Hk Hf Hdb Hser.
  assert (Hst : stored (db (server w)) key (Some EmptyString)) by (by exists e0).
  assert (Hmiss : ∀ self1, offline self1 = false -> inner_key self1 args kwargs = inr key ->
            serializer self1 (computed self1 args kwargs) = Some s ->
            inner self1 args kwargs w
            = (_ ← call_lua_fn key (keys_key self1) (wire s) (ttl self1) (limit self1);
               mret (computed self1 args kwargs, self1))
                (logged (call_event self1 args kwargs)
                        (after_round_trip (EvSend (GET key)) (server w) w))).
  { intros self1 Ho1 Hk1 Hs1.
    rewrite (inner_miss _ _ _ _ _ _ Ho1 Hk1 Hf Hst eq_refl). by rewrite Hs1. }
  split_and!.
  - by apply Hmiss.
  - rewrite (Hmiss self Ho Hk Hser).
    rewrite (inner_miss self args kwargs key (forget key w) None Ho Hk Hf);
      [|apply lookup_delete_eq|done].
    fold r. rewrite Hser.
    unfold mbind, st_bind, codec, mret, st_ret, call_lua_fn, round_trip. simpl.
    rewrite cache_lua_fn_forget.
    destruct (fault w (S (round_trips w))) as [e|]; [done|].
    by destruct (cache_lua_fn key (keys_key self) (wire s) (ttl self) (limit self) (server w))
      as [[e|rep] srv].
  - rewrite (Hmiss self Ho Hk Hser).
    rewrite (inner_miss self args kwargs key (forget key w) None Ho Hk Hf);
      [|apply lookup_delete_eq|done].
    fold r. rewrite Hser.
    unfold mbind, st_bind, codec, mret, st_ret, call_lua_fn, round_trip. simpl.
    rewrite cache_lua_fn_forget.
    destruct (fault w (S (round_trips w))) as [e|]; [done|].
    by destruct (cache_lua_fn key (keys_key self) (wire s) (ttl self) (limit self) (server w))
      as [[e|rep] srv].
  - intros Hf'.
    rewrite (Hmiss self Ho Hk Hser).
    rewrite (inner_miss self args kwargs key (forget key w) None Ho Hk Hf);
      [|apply lookup_delete_eq|done].
    fold r. rewrite Hser.
    unfold mbind, st_bind, codec, mret, st_ret, call_lua_fn, round_trip. simpl.
    rewrite cache_lua_fn_forget. rewrite Hf'.
    by destruct (cache_lua_fn key (keys_key self) (wire s) (ttl self) (limit self) (server w))
      as [[e|rep] srv].
  - intros f. rewrite (Hmiss self Ho Hk Hser).
    rewrite (Hmiss (with_deserializer f self) Ho Hk Hser). simpl.
    unfold mbind, st_bind, mret, st_ret, call_lua_fn, round_trip. simpl.
    destruct (fault w (S (round_trips w))) as [e|]; [done|].
    by destruct (cache_lua_fn key (keys_key self) (wire s) (ttl self) (limit self) (server w))
      as [[e|rep] srv].
  - intros Hempty n outs self' w' Hrun.
    apply (inner_all_empty self args kwargs key s Hk Hser Hempty n self w outs self' w').
    + by left.
    + right. by exists (Some EmptyString).
    + done.
Qed.

(** * Key derivation *)

(** Case analysis of a run of the wrapped call, the script left abstract. *)
Ltac inner_cases :=
  unfold inner, try_except_ConnectionError, client_get, call_fn, call_lua_fn,
    round_trip, log, codec, step, redis_GET, mbind, st_bind, mret, st_ret, raise, of_sum;
  repeat (simpl;
          match goal with
          | |- context [match ?x with _ => _ end] =>
              lazymatch x with
              | context [match _ with _ => _ end] => fail
              | _ => destruct x eqn:?
              end
          end);
  simpl.

(** C7 (as amended). On a decorator with [ismethod] set, the wrapped call
    looks up and writes the key built from the positional arguments without
    the first one: online, it sends GET for that key first and whatever else it
    sends is the atomic write on that key.  [invalidate] builds its key from
    all the positional arguments it is given. *)
Theorem ismethod_drops_receiver_in_call (self : CacheDecorator) (args : pyargs)
    (kwargs : pykwargs) (w : world) :
  ismethod self = true ->
  (∀ key, offline self = false -> get_key self (tail args) kwargs = inr key ->
     ∃ rest,
       trace (inner self args kwargs w).2 = trace w ++ EvSend (GET key) :: rest
       ∧ Forall (fun ev => is_call ev = true
                           ∨ ∃ v, ev = EvSend (EVALSHA key (keys_key self) v
                                                       (ttl self) (limit self))) rest)
  ∧ (∀ key, get_key self args kwargs = inr key ->
       trace (invalidate self args kwargs w).2
       = trace w ++ [EvExecute [DEL [key]; ZREM (keys_key self) [key]]]).
Proof.
  intros Hm. split.
  - intros key Ho Hk. unfold inner. rewrite Ho, Hm, Hk.
    inner_cases; eexists; (split; [rewrite <- ?app_assoc; reflexivity|]);
      repeat first [apply Forall_nil_2
                   |apply Forall_cons_2; [first [by left|right; by eexists]|]].
  - intros key Hk. unfold invalidate. rewrite Hk.
    unfold mbind, st_bind, of_sum, pipeline_execute, round_trip.
    destruct (fault w (round_trips w)); [done|].
    by destruct (run_pipeline _ _).
Qed.

(** * The codec of the batch path *)

(** C10. For a request on a decorator (not a method, online), [mget] looks
    the value up under the key the decorator builds with its own serializer;
    but a stored value is decoded with the deserializer of the [RedisCache]
    and a fresh result is written as encoded by the serializer of the
    [RedisCache], where the wrapped call decodes with the decorator's
    deserializer and writes what the decorator's serializer produced. *)
Theorem batch_uses_the_codec_of_the_cache (rc : RedisCache) (self : CacheDecorator)
    (args : pyargs) (kwargs : pykwargs) (key : string) (w : world) :
  let rq := {| req_fn := self; req_args := Some args; req_kwargs := Some kwargs |} in
  let r := computed self args kwargs in
  ismethod self = false -> offline self = false ->
  get_key self args kwargs = inr key ->
  fault w (round_trips w) = None ->
  mget_keys [rq] = inr [key]
  ∧ inner_key self args kwargs = inr key
  ∧ (∀ v, stored (db (server w)) key (Some v) -> v ≠ EmptyString ->
       (mget rc [rq] w).1
       = match rc_deserializer rc v with
         | Some x => inr [x]
         | None => inl CodecError
         end
       ∧ returned (inner self args kwargs w).1
         = match deserializer self v with
           | Some x => inr x
           | None => inl CodecError
           end)
  ∧ (∀ s1 s2, db (server w) !! key = None ->
       rc_serializer rc r = Some s1 -> serializer self r = Some s2 ->
       trace (mget rc [rq] w).2
       = trace w ++ [EvSend (MGET [key]); call_event self args kwargs;
                     EvExecute [EVALSHA key (keys_key self) (wire s1)
                                        (ttl self) (limit self)]]
       ∧ trace (inner self args kwargs w).2
         = trace w ++ [EvSend (GET key); call_event self args kwargs;
                       EvSend (EVALSHA key (keys_key self) (wire s2)
                                       (ttl self) (limit self))]).
Proof.
  intros rq r Hm Ho Hk Hf.
  assert (Hkeys : mget_keys [rq] = inr [key]).
  { simpl. unfold args_of, kwargs_of. simpl. by rewrite Hk. }
  assert (Hik : inner_key self args kwargs = inr key).
  { unfold inner_key. by rewrite Hm. }
  split_and!; [done|done|..].
  - intros v Hst Hv. split.
    + unfold mget. rewrite Hkeys.
      unfold mbind, st_bind, of_sum, client_mget, round_trip. rewrite Hf.
      unfold step, redis_MGET. simpl. unfold mget_one.
      destruct Hst as [e ->]. simpl.
      unfold mbind, st_bind, codec. by destruct (rc_deserializer rc v).
    + rewrite (inner_hit _ _ _ _ _ _ Ho Hik Hf Hst Hv). simpl.
      by destruct (deserializer self v).
  - intros s1 s2 Hnone Hs1 Hs2. split.
    + unfold mget. rewrite Hkeys.
      unfold mbind, st_bind, of_sum, client_mget, round_trip. rewrite Hf.
      unfold step, redis_MGET. simpl. unfold mget_one. rewrite Hnone. simpl.
      unfold mbind, st_bind, codec, call_fn, mbind, st_bind, log, mret, st_ret.
      unfold args_of, kwargs_of. simpl. fold (computed self args kwargs). fold r.
      rewrite Hs1. simpl. unfold pipeline_execute, round_trip. simpl.
      destruct (fault w (S (round_trips w))); simpl.
      * by rewrite <- !app_assoc.
      * destruct ((cache_lua_fn _ _ _ _ _ ≫= _) _) as [[?|?] ?]; simpl;
          by rewrite <- !app_assoc.
    + rewrite (inner_miss _ _ _ _ _ None Ho Hik Hf Hnone eq_refl).
      fold r. rewrite Hs2.
      unfold mbind, st_bind, codec, mret, st_ret, call_lua_fn, round_trip. simpl.
      destruct (fault w (S (round_trips w))); simpl.
      * by rewrite <- !app_assoc.
      * destruct (cache_lua_fn _ _ _ _ _ _) as [[?|?] ?]; simpl; by rewrite <- !app_assoc.
Qed.

(** * What a write leaves alone *)

Section frame.
Implicit Types (self : CacheDecorator) (args : pyargs) (kwargs : pykwargs) (w : world).

(** A call leaves the server as it was or as the script left it. *)
Lemma inner_server self args kwargs w :
  server (inner self args kwargs w).2 = server w
  ∨ ∃ key v,
      inner_key self args kwargs = inr key
      ∧ server (inner self args kwargs w).2
        = (cache_lua_fn key (keys_key self) v (ttl self) (limit self) (server w)).2.
Proof.
  unfold inner_key.
  inner_cases; try (by left); right; eexists _, _; (split; [done|]);
    match goal with H : cache_lua_fn _ _ _ _ _ _ = _ |- _ => by rewrite H end.
Qed.

Lemma inner_entry self args kwargs w out self1 :
  (inner self args kwargs w).1 = inr (out, self1) -> same_entry self self1.
Proof.
  inner_cases; intros [= <- <-] || intros [=]; by (left + right).
Qed.

(** Without a limit a call changes no key but the one it looks up. *)
Lemma inner_frame self args kwargs w x :
  limit self <= 0 -> inner_key self args kwargs ≠ inr x ->
  db (server (inner self args kwargs w).2) !! x = db (server w) !! x.
Proof.
  intros Hl Hx. destruct (inner_server self args kwargs w) as [->|(key & v & Hk & ->)]; [done|].
  rewrite cache_lua_fn_untracked by done. simpl.
  apply lookup_insert_ne. intros ->. by rewrite Hk in Hx.
Qed.

Lemma inner_all_frame self (calls : list (pyargs * pykwargs)) w x :
  limit self <= 0 ->
  (∀ c, c ∈ calls -> inner_key self c.1 c.2 ≠ inr x) ->
  db (server (inner_all self calls w).2) !! x = db (server w) !! x.
Proof.
  revert self w. induction calls as [|[args kwargs] calls IH]; intros self w Hl Hx; [done|].
  simpl. unfold mbind, st_bind.
  pose proof (inner_frame self args kwargs w x Hl) as Hstep.
  pose proof (inner_entry self args kwargs w) as Hent.
  destruct (inner self args kwargs w) as [[e|[out self1]] w1]; simpl in *.
  - apply Hstep. apply (Hx (args, kwargs)). left.
  - specialize (Hent _ _ eq_refl).
    assert (Hl1 : limit self1 <= 0) by (by destruct Hent as [->| ->]).
    assert (Hx1 : ∀ c, c ∈ calls -> inner_key self1 c.1 c.2 ≠ inr x).
    { intros c Hc. destruct Hent as [->| ->]; apply Hx; by right. }
    specialize (IH self1 w1 Hl1 Hx1).
    destruct (inner_all self1 calls w1) as [[e|[outs self2]] w2]; simpl in *;
      rewrite IH; apply Hstep, (Hx (args, kwargs)); left.
Qed.

Lemma mget_loop_frame (rc : RedisCache) reqs keys (results : list (option string)) :
  ∀ i acc w,
    Forall (queued_by reqs keys) acc.2 ->
    server (mget_loop rc reqs keys i results acc w).2 = server w
    ∧ fault (mget_loop rc reqs keys i results acc w).2 = fault w
    ∧ round_trips (mget_loop rc reqs keys i results acc w).2 = round_trips w
    ∧ ∀ out needs pipe,
        (mget_loop rc reqs keys i results acc w).1 = inr (out, needs, pipe) ->
        Forall (queued_by reqs keys) pipe.
Proof.
  induction results as [|result results IH]; intros i [[out0 needs0] pipe0] w Hacc.
  - simpl. split_and!; try done. by intros out needs pipe [= <- <- <-].
  - simpl in Hacc. simpl mget_loop. destruct result as [v|].
    + unfold mbind, st_bind, codec, mret, st_ret, raise.
      destruct (rc_deserializer rc v) as [x|]; [|done].
      by apply IH.
    + destruct (reqs !! i) as [rq|] eqn:Hrq; [|done].
      destruct (keys !! i) as [key|] eqn:Hkey; [|done].
      unfold mbind, st_bind, call_fn, mbind, st_bind, log, codec, mret, st_ret, raise.
      destruct (rc_serializer rc _) as [s|]; [|done].
      edestruct (IH (S i) (out0 ++ [fn_body (original_fn (req_fn rq)) (args_of rq) (kwargs_of rq)],
                           true,
                           pipe0 ++ [EVALSHA key (keys_key (req_fn rq)) (wire s)
                                             (ttl (req_fn rq)) (limit (req_fn rq))])
                        (logged (EvCall (qualname (original_fn (req_fn rq)))
                                        (args_of rq) (kwargs_of rq)) w))
        as (H1 & H2 & H3 & H4).
      { simpl. apply Forall_app. split; [done|]. apply Forall_singleton.
        exists rq, key, (wire s). split_and!; [|  |done].
        - by apply list_elem_of_lookup_2 in Hrq.
        - by apply list_elem_of_lookup_2 in Hkey. }
      split_and!; done.
Qed.

Lemma run_pipeline_frame (cs : list command) (r : redis) x :
  Forall (fun c => ∃ k zk v ttl limit,
              c = EVALSHA k zk v ttl limit ∧ limit <= 0 ∧ k ≠ x) cs ->
  db (run_pipeline cs r).2 !! x = db r !! x.
Proof.
  revert r. induction cs as [|c cs IH]; intros r Hcs; [done|].
  apply Forall_cons in Hcs as [(k & zk & v & ttl & limit & -> & Hl & Hk) Hcs].
  simpl. unfold mbind, st_bind. rewrite cache_lua_fn_untracked by done.
  unfold mret, st_ret. specialize (IH (with_db (<[k:=RString v (expiry ttl)]> (db r)) r) Hcs).
  destruct (run_pipeline cs _) as [res r2]. simpl in *. rewrite IH.
  by apply lookup_insert_ne.
Qed.

(** Without limits a batch changes no key but those it looks up. *)
Lemma mget_frame (rc : RedisCache) reqs w x :
  (∀ rq, rq ∈ reqs -> limit (req_fn rq) <= 0) ->
  (∀ rq, rq ∈ reqs -> get_key (req_fn rq) (args_of rq) (kwargs_of rq) ≠ inr x) ->
  db (server (mget rc reqs w).2) !! x = db (server w) !! x.
Proof.
  intros Hl Hx. unfold mget.
  destruct (mget_keys reqs) as [e|keys] eqn:Hkeys; [done|].
  unfold mbind at 1, st_bind at 1, of_sum.
  unfold mbind at 1, st_bind at 1, client_mget, round_trip.
  destruct (fault w (round_trips w)); [done|].
  unfold step, redis_MGET. unfold mbind at 1, st_bind at 1.
  set (w1 := after_round_trip (EvSend (MGET keys)) (server w) w).
  destruct (mget_loop_frame rc reqs keys (mget_one (db (server w)) <$> keys) 0
                            ([], false, []) w1 (Forall_nil_2 _)) as (Hs & _ & _ & Hq).
  destruct (mget_loop rc reqs keys 0 _ _ w1) as [[e|[[out needs] pipe]] w2];
    simpl in *; [by rewrite Hs|].
  specialize (Hq _ _ _ eq_refl).
  destruct needs; simpl.
  - unfold mbind, st_bind, pipeline_execute, round_trip.
    destruct (fault w2 (round_trips w2)); simpl; [by rewrite Hs|].
    destruct (run_pipeline pipe (server w2)) as [res srv] eqn:Hrun.
    assert (Hfr : db srv !! x = db (server w2) !! x).
    { pose proof (run_pipeline_frame pipe (server w2) x) as Hfr.
      rewrite Hrun in Hfr. apply Hfr. eapply Forall_impl; [exact Hq|].
      intros c (rq & key & v & Hrq & Hkey & ->).
      exists key, (keys_key (req_fn rq)), v, (ttl (req_fn rq)), (limit (req_fn rq)).
      split_and!; [done|by apply Hl|].
      intros ->. apply mget_keys_spec in Hkeys.
      apply list_elem_of_lookup in Hkey as [j Hj].
      destruct (Forall2_lookup_r _ _ _ _ _ Hkeys Hj) as (rq' & Hrq' & Hget).
      apply (Hx rq'); [by apply list_elem_of_lookup_2 in Hrq'|done]. }
    destruct res; simpl; by rewrite Hfr, Hs.
  - unfold mbind, st_bind, mret, st_ret. simpl. by rewrite Hs.
Qed.

End frame.

(** C8 (as amended). On a decorator with [limit = 0] the atomic write is a
    plain SET or SETEX of the primary key: it neither reads nor writes the
    tracking set.  Hence no number of calls of the wrapped function, and no
    batch over decorators without a limit, creates or changes the tracking
    set, as long as no key they look up is the tracking key itself. *)
Theorem untracked_writes_leave_tracking_set (self : CacheDecorator) :
  limit self = 0 ->
  (∀ k v r,
     cache_lua_fn k (keys_key self) v (ttl self) (limit self) r
     = (inr "OK", with_db (<[k := RString v (expiry (ttl self))]> (db r)) r))
  ∧ (∀ (calls : list (pyargs * pykwargs)) w,
       (∀ c, c ∈ calls -> inner_key self c.1 c.2 ≠ inr (keys_key self)) ->
       db (server (inner_all self calls w).2) !! keys_key self
       = db (server w) !! keys_key self)
  ∧ (∀ (rc : RedisCache) (reqs : list request) w,
       (∀ rq, rq ∈ reqs -> limit (req_fn rq) = 0) ->
       (∀ rq, rq ∈ reqs ->
          get_key (req_fn rq) (args_of rq) (kwargs_of rq) ≠ inr (keys_key self)) ->
       db (server (mget rc reqs w).2) !! keys_key self
       = db (server w) !! keys_key self).
Proof.
  intros Hl. split_and!.
  - intros k v r. apply cache_lua_fn_untracked. lia.
  - intros calls w Hx. apply inner_all_frame; [lia|done].
  - intros rc reqs w Hls Hx. apply mget_frame; [|done].
    intros rq Hrq. rewrite (Hls rq Hrq). lia.
Qed.

(** * Eviction order when the scores increase *)

Section limit_enforcement.
Variables (zk : string) (ttl : Z) (N : nat) (r0 : redis).
Variables (kvs : list (string * string)) (ts : list Q).
Hypothesis HN : (0 < N)%nat.
Hypothesis Hlen : length kvs = S N.
Hypothesis Hts : length ts = S N.
Hypothesis Hnodup : NoDup kvs.*1.
Hypothesis Hzk : zk ∉ kvs.*1.
Hypothesis Hfree : db r0 !! zk = None.
Hypothesis Hscore : ∀ i t, ts !! i = Some t -> time_score (clock r0 (tick r0 + i)) = Some t.
Hypothesis Hinc : ∀ i j ti tj,
  (i < j)%nat -> ts !! i = Some ti -> ts !! j = Some tj -> (ti < tj)%Q.

Lemma write_all_snoc (limit : Z) (l : list (string * string)) k v r :
  write_all zk ttl limit (l ++ [(k, v)]) r
  = match write_all zk ttl limit l r with
    | (inl e, r') => (inl e, r')
    | (inr _, r') => (cache_lua_fn k zk v ttl limit ;; mret ()) r'
    end.
Proof.
  revert r. induction l as [|[k' v'] l IH]; intros r; simpl.
  - unfold mret, st_ret. done.
  - unfold mbind, st_bind.
    destruct (cache_lua_fn k' zk v' ttl limit r) as [[e|rep] r1]; [done|].
    apply IH.
Qed.

Lemma tracked_prefix_insert j z k t :
  tracked_prefix kvs.*1 ts j z ->
  kvs.*1 !! j = Some k -> ts !! j = Some t ->
  tracked_prefix kvs.*1 ts (S j) (<[k := t]> z).
Proof.
  intros [Hsize Hiff] Hk Ht.
  assert (Hnew : z !! k = None).
  { destruct (z !! k) as [t'|] eqn:E; [|done].
    apply Hiff in E as (i & Hi & Hki & _).
    pose proof (NoDup_lookup _ _ _ _ Hnodup Hki Hk). lia. }
  split.
  - rewrite map_size_insert_None by done. lia.
  - intros k' t'. split.
    + intros H. destruct (decide (k' = k)) as [->|Hne].
      * rewrite lookup_insert_eq in H. injection H as <-. exists j. split_and!; [lia|done..].
      * rewrite lookup_insert_ne in H by done.
        apply Hiff in H as (i & Hi & Hki & Hti). exists i. split_and!; [lia|done..].
    + intros (i & Hi & Hki & Hti). destruct (decide (i = j)) as [->|Hij].
      * rewrite Hk in Hki. injection Hki as <-. rewrite Ht in Hti. injection Hti as <-.
        apply lookup_insert_eq.
      * destruct (decide (k' = k)) as [->|Hne].
        { pose proof (NoDup_lookup _ _ _ _ Hnodup Hki Hk). lia. }
        rewrite lookup_insert_ne by done. apply Hiff. exists i. split_and!; [lia|done..].
Qed.

(** While the limit is not reached each write adds its key and evicts
    nothing. *)
Lemma write_all_fills j :
  (j <= N)%nat ->
  ∃ rj,
    write_all zk ttl (Z.of_nat N) (take j kvs) r0 = (inr (), rj)
    ∧ clock rj = clock r0 ∧ tick rj = (tick r0 + j)%nat
    ∧ ¬ holds_string (db rj) zk
    ∧ tracked_prefix kvs.*1 ts j (zset_at (db rj) zk).
Proof.
  induction j as [|j IH]; intros Hj.
  - exists r0. simpl. split_and!; try done; try lia.
    + intros (v & e & H). congruence.
    + unfold zset_at. rewrite Hfree. split; [apply map_size_empty|].
      intros k t. rewrite lookup_empty. split; [done|]. intros (i & Hi & _). lia.
  - destruct IH as (rj & Hrun & Hclk & Htick & Hns & Hinv); [lia|].
    destruct (lookup_lt_is_Some_2 kvs j) as [[k v] Hkv]; [lia|].
    destruct (lookup_lt_is_Some_2 ts j) as [t Ht]; [lia|].
    assert (Hk : kvs.*1 !! j = Some k) by (by rewrite list_lookup_fmap, Hkv).
    assert (Hne : k ≠ zk).
    { intros ->. apply Hzk. by apply list_elem_of_lookup_2 in Hk. }
    rewrite (take_S_r _ _ _ Hkv), write_all_snoc, Hrun.
    unfold mbind, st_bind.
    rewrite (cache_lua_fn_tracked _ _ _ _ _ _ t); [|lia|done|done|].
    2: { rewrite Hclk, Htick. by apply Hscore. }
    pose proof (tracked_prefix_insert _ _ _ _ Hinv Hk Ht) as Hinv'.
    destruct Hinv' as [Hsize' Hiff'].
    assert (Hpop : zpopmin (Z.to_nat (Z.of_nat (size (<[k := t]> (zset_at (db rj) zk)))
                                      - Z.of_nat N))
                           (<[k := t]> (zset_at (db rj) zk))
                   = ([], <[k := t]> (zset_at (db rj) zk))).
    { rewrite Hsize'. by replace (Z.to_nat (Z.of_nat (S j) - Z.of_nat N)) with 0%nat by lia. }
    eexists. split; [reflexivity|]. simpl. split_and!; [done|lia| |].
    + intros (v0 & e0 & H).
      rewrite (tracked_db_lookup _ _ _ _ _ _ _ _ _ _ Hpop) in H. simpl in H.
      by rewrite decide_True in H.
    + rewrite (zset_at_tracked_db _ _ _ _ _ _ _ _ _ Hpop). simpl. by split.
Qed.

(** With [limit = N], [N + 1] distinct keys written on a free tracking key
    with strictly increasing scores: the run completes, [N] keys stay
    tracked, they are all but the first written, and the first written key is
    gone from the tracking set and from the store. *)
Lemma limit_enforced_when_scores_increase :
  ∃ r',
    write_all zk ttl (Z.of_nat N) kvs r0 = (inr (), r')
    ∧ zcard (db r') zk = N
    ∧ (∀ k, is_Some (zset_at (db r') zk !! k) ↔ k ∈ tail kvs.*1)
    ∧ (∀ k0, head kvs.*1 = Some k0 ->
         zset_at (db r') zk !! k0 = None ∧ db r' !! k0 = None).
Proof.
  destruct (write_all_fills N) as (rN & Hrun & Hclk & Htick & Hns & Hinv); [lia|].
  destruct (lookup_lt_is_Some_2 kvs N) as [[k v] Hkv]; [lia|].
  destruct (lookup_lt_is_Some_2 ts N) as [t Ht]; [lia|].
  destruct (lookup_lt_is_Some_2 kvs 0) as [[k0 v0] Hkv0]; [lia|].
  destruct (lookup_lt_is_Some_2 ts 0) as [t0 Ht0]; [lia|].
  assert (Hk : kvs.*1 !! N = Some k) by (by rewrite list_lookup_fmap, Hkv).
  assert (Hk0 : kvs.*1 !! 0%nat = Some k0) by (by rewrite list_lookup_fmap, Hkv0).
  assert (Hne : k ≠ zk).
  { intros ->. apply Hzk. by apply list_elem_of_lookup_2 in Hk. }
  assert (Hne0 : zk ≠ k0).
  { intros ->. apply Hzk. by apply list_elem_of_lookup_2 in Hk0. }
  assert (Hall : take (S N) kvs = kvs) by (apply take_ge; lia).
  assert (Hfinal : write_all zk ttl (Z.of_nat N) kvs r0
                   = (inr (), {| db := tracked_db k zk v ttl (Z.of_nat N) t (db rN);
                                 clock := clock rN; tick := S (tick rN) |})).
  { rewrite <- Hall. rewrite (take_S_r _ _ _ Hkv), write_all_snoc, Hrun.
    unfold mbind, st_bind.
    rewrite (cache_lua_fn_tracked _ _ _ _ _ _ t); [done|lia|done|done|].
    rewrite Hclk, Htick. by apply Hscore. }
  rewrite Hfinal.
  set (z1 := <[k := t]> (zset_at (db rN) zk)).
  destruct (tracked_prefix_insert _ _ _ _ Hinv Hk Ht) as [Hsize Hiff]. fold z1 in Hsize, Hiff.
  assert (Hz0 : z1 !! k0 = Some t0).
  { apply Hiff. exists 0%nat. split_and!; [lia|done..]. }
  assert (Hmin : zmin z1 = Some (k0, t0)).
  { destruct (zmin z1) as [[m sc]|] eqn:E.
    - destruct (zmin_Some _ _ _ E) as [Hm Hleast].
      apply Hiff in Hm as (i & Hi & Hki & Hti).
      destruct (decide (i = 0%nat)) as [->|Hi0].
      + rewrite Hk0 in Hki. rewrite Ht0 in Hti. congruence.
      + exfalso. apply (Qlt_not_le t0 sc).
        * apply (Hinc 0%nat i); [lia|done..].
        * by apply (Hleast k0).
    - apply zmin_None in E. rewrite E in Hz0. by rewrite lookup_empty in Hz0. }
  assert (Hpop : zpopmin (Z.to_nat (Z.of_nat (size z1) - Z.of_nat N)) z1
                 = ([(k0, t0)], delete k0 z1)).
  { rewrite Hsize. replace (Z.to_nat (Z.of_nat (S N) - Z.of_nat N)) with 1%nat by lia.
    simpl. by rewrite Hmin. }
  eexists. split; [reflexivity|]. simpl. unfold zcard.
  rewrite (zset_at_tracked_db _ _ _ _ _ _ _ _ _ Hpop). simpl.
  rewrite decide_False by (intros H%list_elem_of_singleton; done).
  split_and!.
  - rewrite (map_size_delete_Some k0 z1) by eauto. lia.
  - intros k'. rewrite list_elem_of_lookup. split.
    + intros [t' H]. apply lookup_delete_Some in H as [Hk' H].
      apply Hiff in H as (i & Hi & Hki & Hti).
      destruct i as [|i]; [congruence|]. exists i. by rewrite lookup_tail.
    + intros [i Hi]. rewrite lookup_tail in Hi.
      destruct (lookup_lt_is_Some_2 ts (S i)) as [t' Ht'].
      { apply lookup_lt_Some in Hi. rewrite length_fmap in Hi. lia. }
      exists t'. apply lookup_delete_Some. split.
      * intros <-. pose proof (NoDup_lookup _ _ _ _ Hnodup Hk0 Hi). lia.
      * apply Hiff. exists (S i). split_and!; [|done..].
        apply lookup_lt_Some in Hi. rewrite length_fmap in Hi. lia.
  - intros k0' Hhead. rewrite head_lookup, Hk0 in Hhead. injection Hhead as <-.
    split; [apply lookup_delete_eq|].
    rewrite (tracked_db_lookup _ _ _ _ _ _ _ _ _ _ Hpop). simpl.
    rewrite decide_True; [done|]. by apply list_elem_of_singleton.
Qed.

End limit_enforcement.

(** * The claims at concrete inputs *)

(** C2 at a concrete input.  With [limit = 1], two distinct keys are written
    at 100 s 9 us and at 100 s 10 us: the server times increase, but the
    scores the script computes are 100.9 and 100.10, so the second key gets
    the lower score.  The tracking set keeps the first key and the key
    written last is the one evicted and deleted. *)
Theorem later_write_evicted_at_microsecond_rollover :
  let zk := "rc:f:keys" in
  let run := write_all zk 0 1 [("rc:f:a", "1"); ("rc:f:b", "2")] Demo.server_late in
  clock Demo.server_late 0 = (100%N, 9%N)
  ∧ clock Demo.server_late 1 = (100%N, 10%N)
  ∧ time_score (100%N, 9%N) = Some (1009 # 10)%Q
  ∧ time_score (100%N, 10%N) = Some (10010 # 100)%Q
  ∧ run.1 = inr ()
  ∧ map_to_list (zset_at (db run.2) zk) = [("rc:f:a", (1009 # 10)%Q)]
  ∧ db run.2 !! "rc:f:a" = Some (RString "1" None)
  ∧ db run.2 !! "rc:f:b" = None.
Proof. vm_compute. repeat split. Qed.

(** C1 as stated fails: with a codec that stores strings as they are, a
    computation returning the empty string is stored as the empty string; the
    deserializer inverts the serializer on it and the key still holds it, yet
    the second call invokes the computation again. *)
Lemma hit_after_miss_fails_on_empty_encoding :
  let self := Demo.blank_entry in
  let r := computed self [] [] in
  let key := "rc:app.blank:[[], {}]" in
  let first := inner self [] [] Demo.world0 in
  let second := inner self [] [] first.2 in
  offline self = false
  ∧ inner_key self [] [] = inr key
  ∧ db (server Demo.world0) !! key = None
  ∧ first.1 = inr (r, self)
  ∧ serializer self r = Some (SStr EmptyString)
  ∧ deserializer self EmptyString = Some r
  ∧ db (server first.2) !! key = Some (RString EmptyString None)
  ∧ calls_in (trace first.2) = 1%nat
  ∧ returned second.1 = inr r
  ∧ calls_in (trace second.2) = 2%nat.
Proof. vm_compute. repeat split. Qed.

Lemma hit_after_miss_witness :
  let self := Demo.double_entry in
  let w1 := (inner self [PyInt 3] [] Demo.world0).2 in
  inner self [PyInt 3] [] w1
  = (inr (PyInt 6, self),
     after_round_trip (EvSend (GET "rc:app.double:[[3], {}]")) (server w1) w1).
Proof.
  intros self w1.
  apply (hit_after_miss self [PyInt 3] [] "rc:app.double:[[3], {}]" None (SStr "6")
           (PyInt 6, self) Demo.world0 w1 w1).
  - reflexivity.
  - reflexivity.
  - reflexivity.
  - vm_compute. reflexivity.
  - reflexivity.
  - vm_compute. reflexivity.
  - reflexivity.
  - reflexivity.
  - discriminate.
  - vm_compute. eexists. reflexivity.
  - reflexivity.
  - reflexivity.
Defined.

Lemma atomic_write_bounds_tracking_set_witness :
  let run := cache_lua_fn "rc:app.double:[[4], {}]" "rc:app.double:keys" "8" 0 1
                          Demo.server_crowded in
  run.1 = inr "OK" ∧ Z.of_nat (zcard (db run.2) "rc:app.double:keys") <= 1.
Proof.
  intros run.
  destruct (atomic_write_bounds_tracking_set
              "rc:app.double:[[4], {}]" "rc:app.double:keys" "8" 0 1 Demo.server_crowded)
    as [Hdone Hafter]; [lia|].
  split.
  - apply Hdone; [discriminate|].
    intros (v & e & H). vm_compute in H. discriminate.
  - destruct (Hafter "OK" run.2) as (t & _ & Hcard & _).
    + vm_compute. reflexivity.
    + exact Hcard.
Defined.

Lemma offline_is_sticky_witness :
  let self := Demo.double_entry in
  ∃ self1 w1,
    inner self [PyInt 3] [] Demo.world_down = (inr (PyInt 6, self1), w1)
    ∧ offline self1 = true
    ∧ (inner_all self1 [([PyInt 1], []); ([PyInt 2], [])] w1).1
      = inr ([PyInt 2; PyInt 4], self1)
    ∧ trace (inner_all self1 [([PyInt 1], []); ([PyInt 2], [])] w1).2
      = trace w1 ++ [EvCall "app.double" [PyInt 1] []; EvCall "app.double" [PyInt 2] []].
Proof.
  intros self.
  destruct (offline_is_sticky self [PyInt 3] [] "rc:app.double:[[3], {}]" Demo.world_down
              [([PyInt 1], []); ([PyInt 2], [])])
    as (self1 & w1 & H1 & H2 & H3); [reflexivity..|].
  exists self1, w1. split_and!; [exact H1|exact H2|by rewrite H3|by rewrite H3].
Defined.

Lemma store_failure_caught_only_on_get_witness :
  let self := Demo.double_entry in
  (inner self [PyInt 3] [] Demo.world_down).1 = inr (PyInt 6, set_offline self)
  ∧ (inner self [PyInt 3] [] Demo.world_write_fails).1 = inl TimeoutError
  ∧ (mget Demo.cache [Demo.ask self 3] Demo.world_down).1 = inl ConnectionError
  ∧ (mget Demo.cache [Demo.ask self 3] Demo.world_write_fails).1 = inl TimeoutError
  ∧ (invalidate self [PyInt 3] [] Demo.world_down).1 = inl ConnectionError
  ∧ (invalidate_all self Demo.world_down).1 = inl ConnectionError
  ∧ (invalidate_all self Demo.world_write_fails).1 = inl TimeoutError.
Proof.
  intros self.
  destruct store_failure_caught_only_on_get as (H1 & H2 & H3 & H4 & H5 & H6 & H7).
  split_and!.
  - apply (H1 self [PyInt 3] [] "rc:app.double:[[3], {}]"); reflexivity.
  - apply (H2 self [PyInt 3] [] "rc:app.double:[[3], {}]" _ None (SStr "6"));
      reflexivity.
  - apply (H3 _ _ ["rc:app.double:[[3], {}]"]); reflexivity.
  - apply (H4 _ _ ["rc:app.double:[[3], {}]"] [PyInt 6]); try reflexivity.
    repeat constructor.
  - apply (H5 self [PyInt 3] [] "rc:app.double:[[3], {}]"); reflexivity.
  - apply H6. reflexivity.
  - apply H7; [reflexivity| |reflexivity].
    intros (v & e & H). vm_compute in H. discriminate.
Defined.

Lemma mget_preserves_order_witness :
  let self := Demo.double_entry in
  let w := (mget Demo.cache [Demo.ask self 1; Demo.ask self 2] Demo.world0).2 in
  ∃ w',
    mget Demo.cache [Demo.ask self 1; Demo.ask self 5; Demo.ask self 2] w
    = (inr [PyInt 2; PyInt 10; PyInt 4], w')
    ∧ trace w'
      = trace w
        ++ [EvSend (MGET ["rc:app.double:[[1], {}]"; "rc:app.double:[[5], {}]";
                          "rc:app.double:[[2], {}]"]);
            EvCall "app.double" [PyInt 5] [];
            EvExecute [EVALSHA "rc:app.double:[[5], {}]" "rc:app.double:keys" "10" 0 2]].
Proof.
  intros self w.
  destruct (mget_preserves_order Demo.cache
              [Demo.ask self 1; Demo.ask self 5; Demo.ask self 2]
              ["rc:app.double:[[1], {}]"; "rc:app.double:[[5], {}]";
               "rc:app.double:[[2], {}]"]
              [PyInt 2; PyInt 10; PyInt 4] w)
    as (w' & Hrun & _ & Htrace & _).
  - reflexivity.
  - reflexivity.
  - repeat constructor.
  - intros _. split; [reflexivity|]. vm_compute. reflexivity.
  - exists w'. split; [exact Hrun|]. rewrite Htrace. reflexivity.
Defined.

(** C7 as stated fails: on a decorator with [ismethod] set, [invalidate]
    called with the arguments [3, 4] deletes the key built from both, not the
    key built from [4] alone; [mget] looks up the key built from both too. *)
Lemma invalidate_keeps_first_argument :
  let self := Demo.scaled_entry in
  let args := [PyInt 3; PyInt 4] in
  ismethod self = true
  ∧ get_key self (tail args) [] = inr "rc:app.scaled:[[4], {}]"
  ∧ trace (invalidate self args [] Demo.world0).2
    = [EvExecute [DEL ["rc:app.scaled:[[3, 4], {}]"];
                  ZREM "rc:app.scaled:keys" ["rc:app.scaled:[[3, 4], {}]"]]]
  ∧ mget_keys [{| req_fn := self; req_args := Some args; req_kwargs := None |}]
    = inr ["rc:app.scaled:[[3, 4], {}]"]
  ∧ "rc:app.scaled:[[3, 4], {}]" ≠ "rc:app.scaled:[[4], {}]".
Proof. split_and!; [reflexivity..|discriminate]. Qed.

Lemma ismethod_drops_receiver_in_call_witness :
  let self := Demo.scaled_entry in
  (∃ rest, trace (inner self [PyInt 3; PyInt 4] [] Demo.world0).2
           = [] ++ EvSend (GET "rc:app.scaled:[[4], {}]") :: rest)
  ∧ trace (invalidate self [PyInt 4] [] Demo.world0).2
    = [] ++ [EvExecute [DEL ["rc:app.scaled:[[4], {}]"];
                        ZREM "rc:app.scaled:keys" ["rc:app.scaled:[[4], {}]"]]].
Proof.
  intros self. split.
  - destruct (ismethod_drops_receiver_in_call self [PyInt 3; PyInt 4] [] Demo.world0)
      as [Hcall _]; [reflexivity|].
    destruct (Hcall "rc:app.scaled:[[4], {}]") as (rest & Htrace & _); [reflexivity..|].
    by exists rest.
  - destruct (ismethod_drops_receiver_in_call self [PyInt 4] [] Demo.world0)
      as [_ Hinv]; [reflexivity|].
    apply Hinv. reflexivity.
Defined.

(** C8 as stated fails: on a decorator with [limit = 0], [invalidate_all]
    reads the tracking set with ZRANGE and deletes it, and [invalidate]
    removes a member from it. *)
Lemma invalidation_touches_tracking_set_without_limit :
  let self := Demo.double_untracked in
  let zk := keys_key self in
  let all := invalidate_all self Demo.world_crowded in
  let one := invalidate self [PyInt 1] [] Demo.world_crowded in
  limit self = 0
  ∧ zcard (db (server Demo.world_crowded)) zk = 3%nat
  ∧ trace all.2
    = [EvSend (ZRANGE_ALL zk);
       EvSend (DEL ["rc:app.double:[[1], {}]"; "rc:app.double:[[2], {}]";
                    "rc:app.double:[[3], {}]"; zk])]
  ∧ db (server all.2) !! zk = None
  ∧ trace one.2
    = [EvExecute [DEL ["rc:app.double:[[1], {}]"]; ZREM zk ["rc:app.double:[[1], {}]"]]]
  ∧ zcard (db (server one.2)) zk = 2%nat.
Proof. vm_compute. repeat split. Qed.

Lemma untracked_writes_leave_tracking_set_witness :
  let self := Demo.double_untracked in
  let calls := [([PyInt 1], []); ([PyInt 7], [])] in
  db (server (inner_all self calls Demo.world_crowded).2) !! keys_key self
  = db (server Demo.world_crowded) !! keys_key self
  ∧ db (server (mget Demo.cache [Demo.ask self 7; Demo.ask self 8] Demo.world_crowded).2)
       !! keys_key self
    = db (server Demo.world_crowded) !! keys_key self.
Proof.
  intros self calls.
  destruct (untracked_writes_leave_tracking_set self) as (_ & Hcalls & Hbatch);
    [reflexivity|].
  split.
  - apply Hcalls. intros c Hc.
    repeat (apply elem_of_cons in Hc as [->|Hc]); [discriminate..|].
    by apply elem_of_nil in Hc.
  - apply Hbatch; intros rq Hrq;
      (repeat (apply elem_of_cons in Hrq as [->|Hrq]);
       [first [reflexivity|discriminate]..|by apply elem_of_nil in Hrq]).
Defined.

Lemma empty_value_is_a_miss_witness :
  let self := Demo.blank_entry in
  let w := (inner self [] [] Demo.world0).2 in
  trace (inner self [] [] w).2
  = trace w ++ [EvSend (GET "rc:app.blank:[[], {}]"); EvCall "app.blank" [] [];
                EvSend (EVALSHA "rc:app.blank:[[], {}]" "rc:app.blank:keys" EmptyString 0 0)]
  ∧ calls_in (trace (inner_all self (replicate 3 ([], [])) w).2)
    = (calls_in (trace w) + 3)%nat.
Proof.
  intros self w.
  destruct (empty_value_is_a_miss self [] [] "rc:app.blank:[[], {}]" None (SStr EmptyString) w)
    as (Hmiss & _ & _ & Hevery); [reflexivity..|].
  split.
  - rewrite Hmiss. reflexivity.
  - destruct (inner_all self (replicate 3 ([], [])) w) as [[e|[outs self']] w'] eqn:Hrun.
    + vm_compute in Hrun. discriminate.
    + apply (Hevery eq_refl 3%nat outs self' w'). exact Hrun.
Defined.

Lemma batch_uses_the_codec_of_the_cache_witness :
  let self := Demo.double_bytes in
  let key := "rc:app.double:YjpbWzNdLCB7fV0=" in
  let rq := {| req_fn := self; req_args := Some [PyInt 3]; req_kwargs := Some [] |} in
  trace (mget Demo.cache [rq] Demo.world0).2
  = [] ++ [EvSend (MGET [key]); EvCall "app.double" [PyInt 3] [];
           EvExecute [EVALSHA key "rc:app.double:keys" "6" 0 0]]
  ∧ trace (inner self [PyInt 3] [] Demo.world0).2
    = [] ++ [EvSend (GET key); EvCall "app.double" [PyInt 3] [];
             EvSend (EVALSHA key "rc:app.double:keys" "b:6" 0 0)].
Proof.
  intros self key rq.
  destruct (batch_uses_the_codec_of_the_cache Demo.cache self [PyInt 3] [] key Demo.world0)
    as (_ & _ & _ & Hmiss); [reflexivity..|].
  apply (Hmiss (SStr "6") (SBytes "b:6")); reflexivity.
Defined.

(** * Further properties of the atomic write *)

Section atomic_write.
Implicit Types (r : redis) (k zk v : string).

(** A run of the script with [limit > 0] that completes had a tracking key
    it could use. *)
Lemma cache_lua_fn_completes_inv k zk v ttl limit r reply r' :
  0 < limit -> cache_lua_fn k zk v ttl limit r = (inr reply, r') ->
  k ≠ zk ∧ ¬ holds_string (db r) zk.
Proof.
  intros Hl Hrun. split.
  - intros ->. pose proof (cache_lua_fn_wrongtype zk zk v ttl limit r Hl) as H.
    rewrite Hrun in H. by specialize (H (or_introl eq_refl)).
  - intros Hs. pose proof (cache_lua_fn_wrongtype k zk v ttl limit r Hl) as H.
    rewrite Hrun in H. by specialize (H (or_intror Hs)).
Qed.

Lemma popped_members n (z : gmap string Q) popped rest x :
  zpopmin n z = (popped, rest) -> x ∈ popped.*1 -> is_Some (z !! x) ∧ rest !! x = None.
Proof.
  intros Hpop Hin. apply zpopmin_spec in Hpop as (_ & _ & _ & Hp & _).
  apply list_elem_of_fmap in Hin as ([x' sc] & -> & Hin).
  destruct (Hp _ _ Hin). eauto.
Qed.

Lemma kept_members n (z : gmap string Q) popped rest x sc :
  zpopmin n z = (popped, rest) -> z !! x = Some sc -> x ∉ popped.*1 ->
  rest !! x = Some sc.
Proof.
  intros Hpop Hx Hnin.
  pose proof (zpopmin_spec _ _ _ _ Hpop) as (_ & _ & Hsub & _ & Hcov & _).
  destruct (rest !! x) as [sc'|] eqn:E.
  - apply Hsub in E. congruence.
  - destruct Hnin. apply list_elem_of_fmap. exists (x, sc). split; [done|]. by apply Hcov.
Qed.

End atomic_write.

(** X1. After a run of the script with [limit > 0] that completes, on a
    tracking set that does not list its own key, the key just written is
    either tracked with the score of this run and holds the value, or it
    is in neither the tracking set nor the store; and every member the run
    removed from the tracking set has no primary entry left. *)
Theorem tracked_write_is_consistent (k zk v : string) (ttl limit : Z)
    (r r' : redis) (reply : string) :
  0 < limit ->
  zset_at (db r) zk !! zk = None ->
  cache_lua_fn k zk v ttl limit r = (inr reply, r') ->
  ((∃ t, time_score (clock r (tick r)) = Some t
         ∧ zset_at (db r') zk !! k = Some t
         ∧ db r' !! k = Some (RString v (expiry ttl)))
   ∨ (zset_at (db r') zk !! k = None ∧ db r' !! k = None))
  ∧ ∀ m, m ≠ k -> is_Some (zset_at (db r) zk !! m) ->
         zset_at (db r') zk !! m = None -> db r' !! m = None.
Proof.
  intros Hl Hself Hrun.
  destruct (cache_lua_fn_completes_inv _ _ _ _ _ _ _ _ Hl Hrun) as [Hne Hns].
  destruct (time_score_is_Some (clock r (tick r))) as [t Ht].
  rewrite (cache_lua_fn_tracked _ _ _ _ _ _ t) in Hrun by done.
  injection Hrun as _ <-. simpl.
  set (z1 := <[k := t]> (zset_at (db r) zk)).
  destruct (zpopmin (Z.to_nat (Z.of_nat (size z1) - limit)) z1) as [popped rest] eqn:Hpop.
  assert (Hzk : zk ∉ popped.*1).
  { intros Hin. destruct (popped_members _ _ _ _ _ Hpop Hin) as [[sc Hsc] _].
    subst z1. rewrite lookup_insert_ne in Hsc by done. congruence. }
  rewrite (zset_at_tracked_db _ _ _ _ _ _ _ _ _ Hpop). fold z1.
  rewrite decide_False by done.
  split.
  - rewrite (tracked_db_lookup _ _ _ _ _ _ _ _ _ _ Hpop).
    destruct (decide (k ∈ popped.*1)) as [Hin|Hnin].
    + right. by destruct (popped_members _ _ _ _ _ Hpop Hin).
    + left. exists t. split_and!; [done| |].
      * apply (kept_members _ _ _ _ _ _ Hpop); [|done]. subst z1. apply lookup_insert_eq.
      * rewrite decide_False by done. by rewrite decide_True.
  - intros m Hm [sc Hsc] Hgone.
    rewrite (tracked_db_lookup _ _ _ _ _ _ _ _ _ _ Hpop).
    destruct (decide (m ∈ popped.*1)) as [|Hnin]; [done|].
    rewrite (kept_members _ z1 _ _ m sc Hpop) in Hgone; [done| |done].
    subst z1. by rewrite lookup_insert_ne.
Qed.

(** X2. A run of the script with [limit > 0] that completes, on a tracking
    set that does not list its own key, leaves exactly the smaller of
    [limit] and the number of members after the new one was added: it
    evicts the excess and no more.  Apart from the key written and the
    tracking key, the only keys of the store it changes are evicted
    members. *)
Theorem eviction_removes_exactly_the_excess (k zk v : string) (ttl limit : Z)
    (r r' : redis) (reply : string) (t : Q) :
  0 < limit ->
  zset_at (db r) zk !! zk = None ->
  time_score (clock r (tick r)) = Some t ->
  cache_lua_fn k zk v ttl limit r = (inr reply, r') ->
  zcard (db r') zk
  = Nat.min (size (<[k := t]> (zset_at (db r) zk))) (Z.to_nat limit)
  ∧ ∀ x, x ≠ k -> x ≠ zk -> db r' !! x ≠ db r !! x ->
         is_Some (zset_at (db r) zk !! x) ∧ zset_at (db r') zk !! x = None
         ∧ db r' !! x = None.
Proof.
  intros Hl Hself Ht Hrun.
  destruct (cache_lua_fn_completes_inv _ _ _ _ _ _ _ _ Hl Hrun) as [Hne Hns].
  rewrite (cache_lua_fn_tracked _ _ _ _ _ _ t) in Hrun by done.
  injection Hrun as _ <-. simpl. unfold zcard.
  set (z1 := <[k := t]> (zset_at (db r) zk)).
  destruct (zpopmin (Z.to_nat (Z.of_nat (size z1) - limit)) z1) as [popped rest] eqn:Hpop.
  assert (Hzk : zk ∉ popped.*1).
  { intros Hin. destruct (popped_members _ _ _ _ _ Hpop Hin) as [[sc Hsc] _].
    subst z1. rewrite lookup_insert_ne in Hsc by done. congruence. }
  rewrite (zset_at_tracked_db _ _ _ _ _ _ _ _ _ Hpop). fold z1.
  rewrite decide_False by done.
  pose proof (zpopmin_spec _ _ _ _ Hpop) as (Hlen & Hsz & _).
  split; [lia|].
  intros x Hxk Hxz Hchg.
  rewrite (tracked_db_lookup _ _ _ _ _ _ _ _ _ _ Hpop) in Hchg.
  rewrite (tracked_db_lookup _ _ _ _ _ _ _ _ _ _ Hpop).
  destruct (decide (x ∈ popped.*1)) as [Hin|Hnin].
  - destruct (popped_members _ _ _ _ _ Hpop Hin) as [[sc Hsc] Hrest].
    subst z1. rewrite lookup_insert_ne in Hsc by done. eauto.
  - rewrite !decide_False in Hchg by done. done.
Qed.

(** X3. Writing again a key that is already tracked, on a tracking set
    within the limit, evicts nothing: the script completes, the key gets
    the score of this run, every other member keeps its score, and no
    other key of the store changes. *)
Theorem rewrite_of_tracked_key_evicts_nothing (k zk v : string) (ttl limit : Z)
    (r : redis) (z : gmap string Q) (t : Q) :
  0 < limit -> k ≠ zk ->
  db r !! zk = Some (RZSet z) -> is_Some (z !! k) ->
  Z.of_nat (size z) <= limit ->
  time_score (clock r (tick r)) = Some t ->
  cache_lua_fn k zk v ttl limit r
  = (inr "OK",
     {| db := <[zk := RZSet (<[k := t]> z)]> (<[k := RString v (expiry ttl)]> (db r));
        clock := clock r; tick := S (tick r) |})
  ∧ size (<[k := t]> z) = size z.
Proof.
  intros Hl Hne Hz Hk Hsize Ht.
  assert (Hsame : size (<[k := t]> z) = size z).
  { destruct Hk as [sc Hk]. by rewrite (map_size_insert_Some k t z). }
  split; [|done].
  rewrite (cache_lua_fn_tracked _ _ _ _ _ _ t); [|done|done| |done].
  2: { intros (v0 & e0 & H). congruence. }
  unfold tracked_db, zset_at. rewrite Hz, Hsame.
  by assert ((0 <? Z.of_nat (size z) - limit)%Z = false) as -> by lia.
Qed.

(** The script stopped by ZADD: the SET before it stays done. *)
Lemma cache_lua_fn_refused (k zk v : string) (ttl limit : Z) (r : redis) :
  0 < limit -> k = zk ∨ holds_string (db r) zk ->
  cache_lua_fn k zk v ttl limit r
  = (inl WRONGTYPE,
     {| db := <[k := RString v (expiry ttl)]> (db r);
        clock := clock r; tick := S (tick r) |}).
Proof.
  intros Hl Hbad. unfold cache_lua_fn.
  assert ((0 <? limit)%Z = true) as -> by lia.
  set (d1 := <[k := RString v (expiry ttl)]> (db r)).
  assert (Hset : (if (0 <? ttl)%Z
                  then step (redis_SETEX k ttl v) else step (redis_SET k v)) r
                 = (inr "OK", with_db d1 r)).
  { subst d1. unfold expiry. by destruct (0 <? ttl)%Z. }
  unfold mbind, st_bind at 1. rewrite Hset.
  unfold st_bind at 1. unfold st_bind at 1.
  unfold step at 1, redis_TIME. simpl.
  destruct (time_score_is_Some (clock r (tick r))) as [t Ht].
  unfold time_score in Ht. destruct (clock r (tick r)) as [sec usec] eqn:Hclk.
  simpl in Ht. unfold lua_tonumber. simpl. rewrite Ht.
  unfold mret, st_ret. unfold st_bind at 1. unfold st_bind at 1.
  unfold step at 1, redis_ZADD. simpl.
  assert (∃ v0 e0, d1 !! zk = Some (RString v0 e0)) as (v0 & e0 & ->); [|done].
  subst d1. destruct Hbad as [<-|(v0 & e0 & H)].
  - eexists _, _. by rewrite lookup_insert_eq.
  - destruct (decide (k = zk)) as [<-|Hne].
    + eexists _, _. by rewrite lookup_insert_eq.
    + exists v0, e0. by rewrite lookup_insert_ne.
Qed.

(** X4. When the tracking key holds a string (or is the primary key), the
    script with [limit > 0] stops at ZADD with a WRONGTYPE error, but what
    it did before stays: the primary key holds the new value, untracked, and
    nothing else in the store has changed. *)
Theorem refused_tracking_leaves_value_written (k zk v : string) (ttl limit : Z) (r : redis) :
  0 < limit -> k = zk ∨ holds_string (db r) zk ->
  cache_lua_fn k zk v ttl limit r
  = (inl WRONGTYPE,
     {| db := <[k := RString v (expiry ttl)]> (db r);
        clock := clock r; tick := S (tick r) |})
  ∧ (k ≠ zk -> db (cache_lua_fn k zk v ttl limit r).2 !! zk = db r !! zk).
Proof.
  intros Hl Hbad. rewrite (cache_lua_fn_refused _ _ _ _ _ _ Hl Hbad).
  split; [done|]. intros Hne. simpl. by apply lookup_insert_ne.
Qed.

(** * Invalidation *)

Section invalidation.
Implicit Types (self : CacheDecorator) (args : pyargs) (kwargs : pykwargs) (w : world).

(** The two commands [invalidate] queues, on the server. *)
Lemma run_invalidate (key zk : string) (r : redis) :
  let out := run_pipeline [DEL [key]; ZREM zk [key]] r in
  db out.2 !! key = None
  ∧ zset_at (db out.2) zk !! key = None
  ∧ (∀ x, x ≠ key -> x ≠ zk -> db out.2 !! x = db r !! x)
  ∧ (key ≠ zk -> ∀ m, m ≠ key -> zset_at (db out.2) zk !! m = zset_at (db r) zk !! m)
  ∧ (key ≠ zk -> holds_string (db r) zk -> out.1 = inl WRONGTYPE)
  ∧ (¬ holds_string (db r) zk -> out.1 = inr ()).
Proof.
  simpl. unfold mbind, st_bind, mret, st_ret, step, redis_DEL, redis_ZREM. simpl.
  destruct (delete key (db r) !! zk) as [[v0 e0|z]|] eqn:E; simpl.
  - apply lookup_delete_Some in E as [Hne E].
    split_and!; try done.
    + apply lookup_delete_eq.
    + unfold zset_at. by rewrite lookup_delete_ne, E.
    + intros x Hx _. by apply lookup_delete_ne.
    + intros _ m _. unfold zset_at. by rewrite lookup_delete_ne, E.
    + intros Hns. destruct Hns. by exists v0, e0.
  - apply lookup_delete_Some in E as [Hne E].
    unfold put_zset. destruct (decide (delete key z = ∅)) as [Hemp|Hnemp]; simpl.
    + split_and!; try done.
      * rewrite lookup_delete_ne by done. apply lookup_delete_eq.
      * unfold zset_at. by rewrite lookup_delete_eq.
      * intros x Hx Hxz. by rewrite !lookup_delete_ne.
      * intros _ m Hm. unfold zset_at. rewrite lookup_delete_eq, E.
        rewrite lookup_empty. symmetry.
        rewrite <- (lookup_delete_ne z key m) by done. by rewrite Hemp, lookup_empty.
      * intros _ (v0 & e0 & H). congruence.
    + split_and!; try done.
      * rewrite lookup_insert_ne by done. apply lookup_delete_eq.
      * unfold zset_at. rewrite lookup_insert_eq. apply lookup_delete_eq.
      * intros x Hx Hxz. by rewrite lookup_insert_ne, lookup_delete_ne.
      * intros _ m Hm. unfold zset_at. rewrite lookup_insert_eq, E.
        by apply lookup_delete_ne.
      * intros _ (v0 & e0 & H). congruence.
  - split_and!; try done.
    + apply lookup_delete_eq.
    + unfold zset_at. by rewrite E.
    + intros x Hx _. by apply lookup_delete_ne.
    + intros Hne m _. unfold zset_at. by rewrite lookup_delete_ne.
    + intros Hne (v0 & e0 & H). rewrite lookup_delete_ne in E by done. congruence.
Qed.

Lemma invalidate_run self args kwargs key w :
  get_key self args kwargs = inr key ->
  fault w (round_trips w) = None ->
  invalidate self args kwargs w
  = ((run_pipeline [DEL [key]; ZREM (keys_key self) [key]] (server w)).1,
     after_round_trip (EvExecute [DEL [key]; ZREM (keys_key self) [key]])
       (run_pipeline [DEL [key]; ZREM (keys_key self) [key]] (server w)).2 w).
Proof.
  intros Hk Hf. unfold invalidate. rewrite Hk.
  unfold mbind, st_bind, of_sum, pipeline_execute, round_trip. rewrite Hf.
  by destruct (run_pipeline _ _).
Qed.

(** An online call on an absent key invokes the computation right after
    the GET. *)
Lemma inner_absent_calls self args kwargs key w :
  offline self = false -> inner_key self args kwargs = inr key ->
  fault w (round_trips w) = None -> db (server w) !! key = None ->
  ∃ rest,
    trace (inner self args kwargs w).2
    = trace w ++ EvSend (GET key) :: call_event self args kwargs :: rest.
Proof.
  intros Ho Hk Hf Hnone.
  rewrite (inner_miss _ _ _ _ _ None Ho Hk Hf Hnone eq_refl).
  unfold mbind, st_bind, codec, mret, st_ret, raise, call_lua_fn, round_trip.
  destruct (serializer self _) as [s|]; simpl.
  - destruct (fault w (S (round_trips w))); simpl.
    + eexists. by rewrite <- !app_assoc.
    + destruct (cache_lua_fn _ _ _ _ _ _) as [[?|?] ?]; simpl;
        eexists; by rewrite <- !app_assoc.
  - exists []. by rewrite <- !app_assoc.
Qed.

(** ZRANGE over the whole set lists its members, all of them. *)
Lemma zrange_members (z : gmap string Q) (k : string) :
  k ∈ (zpopmin (size z) z).1.*1 ↔ is_Some (z !! k).
Proof.
  destruct (zpopmin (size z) z) as [popped rest] eqn:Hpop. simpl.
  pose proof (zpopmin_spec _ _ _ _ Hpop) as (Hlen & Hsz & _ & Hp & Hcov & _).
  assert (Hrest : rest = ∅) by (apply map_size_empty_inv; lia).
  split.
  - intros ([k' sc] & -> & Hin)%list_elem_of_fmap. destruct (Hp _ _ Hin). eauto.
  - intros [sc Hsc]. apply list_elem_of_fmap. exists (k, sc). split; [done|].
    apply Hcov; [done|]. by rewrite Hrest, lookup_empty.
Qed.

(** [invalidate_all] when both round trips go through. *)
Lemma invalidate_all_run self w :
  let zk := keys_key self in
  let z := zset_at (db (server w)) zk in
  fault w (round_trips w) = None ->
  ¬ holds_string (db (server w)) zk ->
  fault w (S (round_trips w)) = None ->
  invalidate_all self w
  = (inr (),
     {| server := with_db (delete_all ((zpopmin (size z) z).1.*1 ++ [zk])
                                      (db (server w))) (server w);
        fault := fault w; round_trips := S (S (round_trips w));
        trace := trace w ++ [EvSend (ZRANGE_ALL zk);
                             EvSend (DEL ((zpopmin (size z) z).1.*1 ++ [zk]))] |}).
Proof.
  intros zk z Hf Hns Hf2. unfold invalidate_all.
  unfold mbind, st_bind, client_zrange_all, client_delete, round_trip.
  rewrite Hf. fold zk.
  assert (Hrange : step (redis_ZRANGE_all zk) (server w)
                   = (inr (zpopmin (size z) z).1.*1, server w)).
  { unfold step, redis_ZRANGE_all. subst z. unfold zset_at.
    destruct (db (server w) !! zk) as [[v0 e0|z0]|] eqn:E; try done.
    destruct Hns. by exists v0, e0. }
  rewrite Hrange. simpl. rewrite Hf2.
  unfold step. rewrite redis_DEL_nonempty.
  2: { intros H. by apply app_eq_nil in H as [_ ?]. }
  simpl. unfold mret, st_ret, after_round_trip. simpl. by rewrite <- app_assoc.
Qed.

End invalidation.

(** X5. [invalidate] with a reachable store always leaves the key out of
    the store and out of the tracking set; it touches no other key of the
    store and no other member; it returns normally unless the tracking key
    holds a string.  An online call that looks up the same key afterwards
    invokes the computation right after its GET. *)
Theorem invalidate_then_call_recomputes (self : CacheDecorator)
    (args args' : pyargs) (kwargs kwargs' : pykwargs) (key : string) (w : world) :
  let w1 := (invalidate self args kwargs w).2 in
  let zk := keys_key self in
  get_key self args kwargs = inr key ->
  fault w (round_trips w) = None ->
  db (server w1) !! key = None
  ∧ zset_at (db (server w1)) zk !! key = None
  ∧ (∀ x, x ≠ key -> x ≠ zk -> db (server w1) !! x = db (server w) !! x)
  ∧ (key ≠ zk -> ∀ m, m ≠ key ->
       zset_at (db (server w1)) zk !! m = zset_at (db (server w)) zk !! m)
  ∧ (¬ holds_string (db (server w)) zk -> (invalidate self args kwargs w).1 = inr ())
  ∧ (offline self = false -> inner_key self args' kwargs' = inr key ->
     fault w (S (round_trips w)) = None ->
     ∃ rest,
       trace (inner self args' kwargs' w1).2
       = trace w1 ++ EvSend (GET key) :: call_event self args' kwargs' :: rest).
Proof.
  intros w1 zk Hk Hf. subst w1.
  rewrite (invalidate_run _ _ _ _ _ Hk Hf). simpl.
  destruct (run_invalidate key zk (server w)) as (H1 & H2 & H3 & H4 & _ & H6).
  fold zk. split_and!; try done.
  intros Ho Hik Hf2. by apply inner_absent_calls.
Qed.

(** X6. [invalidate_all] with a reachable store and a tracking key that is
    free or holds a sorted set: it returns normally after a ZRANGE and one
    DEL; afterwards the tracking key is gone and so is the primary entry of
    every member it listed; every other key of the store is as before.  When
    the tracking key holds a string, the ZRANGE is refused, the error is
    raised and nothing is deleted. *)
Theorem invalidate_all_clears_tracked_keys (self : CacheDecorator) (w : world) :
  let zk := keys_key self in
  let z := zset_at (db (server w)) zk in
  fault w (round_trips w) = None ->
  (¬ holds_string (db (server w)) zk ->
   fault w (S (round_trips w)) = None ->
   ∃ w1,
     invalidate_all self w = (inr (), w1)
     ∧ trace w1 = trace w ++ [EvSend (ZRANGE_ALL zk);
                              EvSend (DEL ((zpopmin (size z) z).1.*1 ++ [zk]))]
     ∧ db (server w1) !! zk = None
     ∧ (∀ m, is_Some (z !! m) -> db (server w1) !! m = None)
     ∧ (∀ x, x ≠ zk -> z !! x = None -> db (server w1) !! x = db (server w) !! x))
  ∧ (holds_string (db (server w)) zk ->
     invalidate_all self w
     = (inl WRONGTYPE, after_round_trip (EvSend (ZRANGE_ALL zk)) (server w) w)).
Proof.
  intros zk z Hf. split.
  - intros Hns Hf2. rewrite (invalidate_all_run self w Hf Hns Hf2). fold zk. fold z.
    eexists. split; [reflexivity|]. simpl.
    split_and!; [done|..].
    + rewrite delete_all_lookup. rewrite decide_True; [done|].
      apply elem_of_app. right. left.
    + intros m Hm. rewrite delete_all_lookup. rewrite decide_True; [done|].
      apply elem_of_app. left. by apply zrange_members.
    + intros x Hx Hnm. rewrite delete_all_lookup. rewrite decide_False; [done|].
      intros [Hin|Hin%list_elem_of_singleton]%elem_of_app; [|done].
      apply zrange_members in Hin as [sc Hsc]. fold z in Hsc. congruence.
  - intros (v0 & e0 & Hs). unfold invalidate_all.
    unfold mbind, st_bind, client_zrange_all, round_trip. rewrite Hf. fold zk.
    unfold step, redis_ZRANGE_all. by rewrite Hs.
Qed.

(** X7. The tracking set is the only record [invalidate_all] has of the
    keys: on a decorator without a limit (so the script does not track) and
    with no tracking set in the store, a value the wrapped call has just
    written is still there after [invalidate_all] has returned. *)
Theorem invalidate_all_keeps_untracked_values (self : CacheDecorator)
    (args : pyargs) (kwargs : pykwargs) (key : string) (reply : option string)
    (s : serialized) (w : world) :
  let w1 := (inner self args kwargs w).2 in
  let w2 := (invalidate_all self w1).2 in
  limit self <= 0 -> offline self = false ->
  inner_key self args kwargs = inr key -> key ≠ keys_key self ->
  db (server w) !! keys_key self = None ->
  stored (db (server w)) key reply -> falsy reply = true ->
  serializer self (computed self args kwargs) = Some s ->
  (∀ i, (i < 4)%nat -> fault w (round_trips w + i) = None) ->
  (inner self args kwargs w).1 = inr (computed self args kwargs, self)
  ∧ (invalidate_all self w1).1 = inr ()
  ∧ db (server w2) !! key = Some (RString (wire s) (expiry (ttl self))).
Proof.
  intros w1 w2 Hl Ho Hk Hne Hfree Hst Hm Hser Hfaults.
  assert (Hf0 : fault w (round_trips w) = None).
  { rewrite <- (Nat.add_0_r (round_trips w)). apply Hfaults. lia. }
  assert (Hf1 : fault w (S (round_trips w)) = None).
  { rewrite <- Nat.add_1_r. apply Hfaults. lia. }
  assert (Hf2 : fault w (S (S (round_trips w))) = None).
  { replace (S (S (round_trips w))) with (round_trips w + 2)%nat by lia.
    apply Hfaults. lia. }
  assert (Hf3 : fault w (S (S (S (round_trips w)))) = None).
  { replace (S (S (S (round_trips w)))) with (round_trips w + 3)%nat by lia.
    apply Hfaults. lia. }
  set (d1 := <[key := RString (wire s) (expiry (ttl self))]> (db (server w))).
  assert (Hrun : inner self args kwargs w
                 = (inr (computed self args kwargs, self),
                    after_round_trip
                      (EvSend (EVALSHA key (keys_key self) (wire s) (ttl self) (limit self)))
                      (with_db d1 (server w))
                      (logged (call_event self args kwargs)
                         (after_round_trip (EvSend (GET key)) (server w) w)))).
  { rewrite (inner_miss _ _ _ _ _ _ Ho Hk Hf0 Hst Hm). rewrite Hser.
    unfold mbind, st_bind, codec, mret, st_ret, call_lua_fn, round_trip. simpl.
    rewrite Hf1. by rewrite cache_lua_fn_untracked by done. }
  subst w2 w1. rewrite Hrun. simpl. split; [done|].
  assert (Hzk : d1 !! keys_key self = None).
  { subst d1. by rewrite lookup_insert_ne. }
  rewrite invalidate_all_run; simpl; try done.
  - unfold zset_at. rewrite Hzk. simpl. split; [done|].
    rewrite map_size_empty. simpl.
    rewrite lookup_delete_ne by done. subst d1. apply lookup_insert_eq.
  - intros (v0 & e0 & H). congruence.
Qed.

(** * Edge cases of the wrapped call and of the batch *)

Section edges.
Implicit Types (self : CacheDecorator) (args : pyargs) (kwargs : pykwargs) (w : world).

(** An online call whose GET reads as a miss invokes the computation right
    after the GET. *)
Lemma inner_falsy_calls self args kwargs key w reply :
  offline self = false -> inner_key self args kwargs = inr key ->
  fault w (round_trips w) = None ->
  stored (db (server w)) key reply -> falsy reply = true ->
  ∃ rest,
    trace (inner self args kwargs w).2
    = trace w ++ EvSend (GET key) :: call_event self args kwargs :: rest.
Proof.
  intros Ho Hk Hf Hst Hm.
  rewrite (inner_miss _ _ _ _ _ _ Ho Hk Hf Hst Hm).
  unfold mbind, st_bind, codec, mret, st_ret, raise, call_lua_fn, round_trip.
  destruct (serializer self _) as [s|]; simpl.
  - destruct (fault w (S (round_trips w))); simpl.
    + eexists. by rewrite <- !app_assoc.
    + destruct (cache_lua_fn _ _ _ _ _ _) as [[?|?] ?]; simpl;
        eexists; by rewrite <- !app_assoc.
  - exists []. by rewrite <- !app_assoc.
Qed.

(** [mget] on one request whose key is present. *)
Lemma mget_single_present (rc : RedisCache) (rq : request) key w v :
  mget_keys [rq] = inr [key] ->
  fault w (round_trips w) = None ->
  stored (db (server w)) key (Some v) ->
  mget rc [rq] w
  = (match rc_deserializer rc v with
     | Some x => inr [x]
     | None => inl CodecError
     end, after_round_trip (EvSend (MGET [key])) (server w) w).
Proof.
  intros Hkeys Hf [e Hst]. unfold mget. rewrite Hkeys.
  unfold mbind, st_bind, of_sum, client_mget, round_trip. rewrite Hf.
  unfold step, redis_MGET. simpl. unfold mget_one. rewrite Hst. simpl.
  unfold mbind, st_bind, codec, mret, st_ret, raise.
  by destruct (rc_deserializer rc v).
Qed.

End edges.

(** X8. [mget] tests the replies with [is None]: a key that holds a
    string, the empty string included, is a hit; [mget] decodes it with one
    MGET, invokes nothing and writes nothing.  The wrapped call tests with
    [not result]: on the same store, with the empty string under its key,
    it invokes the computation. *)
Theorem mget_hits_on_empty_value (rc : RedisCache) (self : CacheDecorator)
    (args : pyargs) (kwargs : pykwargs) (key : string) (v : string) (w : world) :
  let rq := {| req_fn := self; req_args := Some args; req_kwargs := Some kwargs |} in
  get_key self args kwargs = inr key ->
  fault w (round_trips w) = None ->
  stored (db (server w)) key (Some v) ->
  mget rc [rq] w
  = (match rc_deserializer rc v with
     | Some x => inr [x]
     | None => inl CodecError
     end, after_round_trip (EvSend (MGET [key])) (server w) w)
  ∧ (v = EmptyString -> offline self = false -> ismethod self = false ->
     ∃ rest,
       trace (inner self args kwargs w).2
       = trace w ++ EvSend (GET key) :: call_event self args kwargs :: rest).
Proof.
  intros rq Hk Hf Hst. split.
  - apply mget_single_present; try done.
    simpl. unfold args_of, kwargs_of. simpl. by rewrite Hk.
  - intros -> Ho Hm. apply (inner_falsy_calls _ _ _ _ _ (Some EmptyString)); try done.
    unfold inner_key. by rewrite Hm.
Qed.

(** X9. When the key of a call holds a sorted set, GET is refused: the
    wrapped call raises the WRONGTYPE error after that single round trip,
    without invoking the computation, and the decorator stays online (the
    error is not a connection error).  [mget] reads such a key as absent and
    invokes the computation. *)
Theorem wrong_type_key_raises_in_call (rc : RedisCache) (self : CacheDecorator)
    (args : pyargs) (kwargs : pykwargs) (key : string) (z : gmap string Q) (w : world) :
  let rq := {| req_fn := self; req_args := Some args; req_kwargs := Some kwargs |} in
  offline self = false -> ismethod self = false ->
  get_key self args kwargs = inr key ->
  fault w (round_trips w) = None ->
  db (server w) !! key = Some (RZSet z) ->
  inner self args kwargs w
  = (inl WRONGTYPE, after_round_trip (EvSend (GET key)) (server w) w)
  ∧ ∃ rest,
      trace (mget rc [rq] w).2
      = trace w ++ EvSend (MGET [key]) :: call_event self args kwargs :: rest.
Proof.
  intros rq Ho Hm Hk Hf Hz. split.
  - unfold inner. rewrite Ho, Hm, Hk.
    unfold mbind, st_bind, of_sum, try_except_ConnectionError, client_get, round_trip.
    rewrite Hf. unfold step, redis_GET. by rewrite Hz.
  - unfold mget. simpl. unfold args_of, kwargs_of. simpl. rewrite Hk.
    unfold mbind, st_bind, of_sum, client_mget, round_trip. rewrite Hf.
    unfold step, redis_MGET. simpl. unfold mget_one. rewrite Hz. simpl.
    unfold mbind, st_bind, codec, call_fn, mbind, st_bind, log, mret, st_ret, raise.
    unfold args_of, kwargs_of. simpl.
    destruct (rc_serializer rc _) as [s|]; simpl.
    + unfold pipeline_execute, round_trip. simpl.
      destruct (fault w (S (round_trips w))); simpl.
      * eexists. by rewrite <- !app_assoc.
      * destruct ((cache_lua_fn _ _ _ _ _ ≫= _) _) as [[?|?] ?]; simpl;
          eexists; by rewrite <- !app_assoc.
    + exists []. by rewrite <- !app_assoc.
Qed.

(** X10. Failures of the codec in the wrapped call, online.  When the
    serializer raises on the arguments, the call raises before anything is
    sent or invoked.  On a hit, the stored value is decoded and nothing else
    happens: when the deserializer raises, the call raises and does not fall
    back on the computation.  On a miss, when the serializer raises on the
    result, the call raises after the computation was invoked and nothing is
    written.  Offline, no codec is used at all. *)
Theorem codec_failures_in_call (self : CacheDecorator) (args : pyargs)
    (kwargs : pykwargs) (w : world) :
  (∀ e, offline self = false -> inner_key self args kwargs = inl e ->
        inner self args kwargs w = (inl e, w))
  ∧ (∀ key v, offline self = false -> inner_key self args kwargs = inr key ->
        fault w (round_trips w) = None ->
        stored (db (server w)) key (Some v) -> v ≠ EmptyString ->
        deserializer self v = None ->
        inner self args kwargs w
        = (inl CodecError, after_round_trip (EvSend (GET key)) (server w) w))
  ∧ (∀ key reply, offline self = false -> inner_key self args kwargs = inr key ->
        fault w (round_trips w) = None ->
        stored (db (server w)) key reply -> falsy reply = true ->
        serializer self (computed self args kwargs) = None ->
        inner self args kwargs w
        = (inl CodecError,
           logged (call_event self args kwargs)
                  (after_round_trip (EvSend (GET key)) (server w) w)))
  ∧ (offline self = true ->
     inner self args kwargs w
     = (inr (computed self args kwargs, self), logged (call_event self args kwargs) w)).
Proof.
  split_and!.
  - intros e Ho Hk. unfold inner. rewrite Ho. unfold inner_key in Hk. by rewrite Hk.
  - intros key v Ho Hk Hf Hst Hv Hd.
    rewrite (inner_hit _ _ _ _ _ _ Ho Hk Hf Hst Hv). by rewrite Hd.
  - intros key reply Ho Hk Hf Hst Hm Hser.
    rewrite (inner_miss _ _ _ _ _ _ Ho Hk Hf Hst Hm). by rewrite Hser.
  - apply inner_offline.
Qed.

(** X11. With [ismethod] set the receiver is no part of the key, so all
    receivers share the entries: online, when the key built from the
    arguments after the receiver holds a non-empty value, the call returns
    that value decoded, whatever the receiver, without invoking the
    computation; and the key a call looks up is the same for every
    receiver. *)
Theorem receivers_share_entries (self : CacheDecorator) (args : pyargs)
    (kwargs : pykwargs) (key : string) (v : string) (w : world) :
  ismethod self = true -> offline self = false ->
  get_key self args kwargs = inr key ->
  fault w (round_trips w) = None ->
  stored (db (server w)) key (Some v) -> v ≠ EmptyString ->
  ∀ receiver,
    inner_key self (receiver :: args) kwargs = inr key
    ∧ inner self (receiver :: args) kwargs w
      = (match deserializer self v with
         | Some x => inr (x, self)
         | None => inl CodecError
         end, after_round_trip (EvSend (GET key)) (server w) w).
Proof.
  intros Hm Ho Hk Hf Hst Hv receiver.
  assert (Hik : inner_key self (receiver :: args) kwargs = inr key).
  { unfold inner_key. by rewrite Hm. }
  split; [done|]. by apply inner_hit.
Qed.

(** * Keys *)

Section keys.
Implicit Types (self : CacheDecorator) (args : pyargs) (kwargs : pykwargs).

Lemma append_inj_r (p s1 s2 : string) : p +:+ s1 = p +:+ s2 -> s1 = s2.
Proof. induction p as [|c p IH]; simpl; [done|]. intros [= H]. by apply IH. Qed.

Lemma get_key_text self args kwargs :
  get_key self args kwargs
  = match serializer self (PyList [PyList args; PyDict kwargs]) with
    | None => inl CodecError
    | Some x => inr (prefix self +:+ ":" +:+ namespace self +:+ ":" +:+ key_text x)
    end.
Proof. unfold get_key. by destruct (serializer self _) as [[?|?]|]. Qed.

End keys.

(** X12. Within one decorator two calls get the same key exactly when the
    serializer gives the same text for their arguments (a [str] as it is,
    [bytes] in base64).  On a decorator whose tracking key is
    [prefix:namespace:keys], as [__call__] sets it, the key of a call is the
    tracking key exactly when that text is [keys]. *)
Theorem keys_coincide_iff_same_text (self : CacheDecorator)
    (args1 args2 : pyargs) (kwargs1 kwargs2 : pykwargs) (x1 x2 : serialized) :
  serializer self (PyList [PyList args1; PyDict kwargs1]) = Some x1 ->
  serializer self (PyList [PyList args2; PyDict kwargs2]) = Some x2 ->
  (get_key self args1 kwargs1 = get_key self args2 kwargs2 ↔ key_text x1 = key_text x2)
  ∧ (keys_key self = prefix self +:+ ":" +:+ namespace self +:+ ":keys" ->
     (get_key self args1 kwargs1 = inr (keys_key self) ↔ key_text x1 = "keys")).
Proof.
  intros H1 H2. rewrite !get_key_text, H1, H2. split.
  - split; [|by intros ->].
    intros [= H]. by do 4 apply append_inj_r in H.
  - intros ->. split; [|by intros ->].
    intros [= H]. do 3 apply append_inj_r in H.
    change ":keys" with (":" +:+ "keys") in H. by apply append_inj_r in H.
Qed.

(** * What a miss writes *)

(** X13. An online call that misses and returns has returned the
    computed result, and its key then holds the serialized result with the
    time to live of the decorator when that is positive and with none
    otherwise (a negative [ttl] is no expiry, not an error), unless the
    eviction pass of the same write removed it.  Without a limit the store
    after the call is the store before with that one key set. *)
Theorem miss_stores_value_with_ttl (self : CacheDecorator) (args : pyargs)
    (kwargs : pykwargs) (key : string) (reply : option string) (s : serialized)
    (out : pyobj * CacheDecorator) (w w1 : world) :
  offline self = false -> inner_key self args kwargs = inr key ->
  fault w (round_trips w) = None ->
  stored (db (server w)) key reply -> falsy reply = true ->
  serializer self (computed self args kwargs) = Some s ->
  inner self args kwargs w = (inr out, w1) ->
  out = (computed self args kwargs, self)
  ∧ (db (server w1) !! key = None
     ∨ db (server w1) !! key
       = Some (RString (wire s) (if (0 <? ttl self)%Z then Some (ttl self) else None)))
  ∧ (limit self <= 0 ->
     db (server w1)
     = <[key := RString (wire s) (if (0 <? ttl self)%Z then Some (ttl self) else None)]>
         (db (server w))).
Proof.
  intros Ho Hk Hf Hst Hm Hser Hrun.
  rewrite (inner_miss _ _ _ _ _ _ Ho Hk Hf Hst Hm) in Hrun. rewrite Hser in Hrun.
  unfold mbind, st_bind, codec, mret, st_ret, call_lua_fn, round_trip in Hrun.
  simpl in Hrun.
  destruct (fault w (S (round_trips w))); [done|].
  destruct (cache_lua_fn key (keys_key self) (wire s) (ttl self) (limit self) (server w))
    as [[e|rep] srv] eqn:Hlua; [done|].
  injection Hrun as <- <-. simpl. split_and!; [done| |].
  - apply (cache_lua_fn_primary _ _ _ _ _ _ _ _ Hlua).
  - intros Hl. rewrite cache_lua_fn_untracked in Hlua by done. by injection Hlua as _ <-.
Qed.


(** * Round trips and the offline flag *)

Section budget.
Implicit Types (self : CacheDecorator) (args : pyargs) (kwargs : pykwargs) (w : world).



Lemma mget_keys_offline (reqs : list request) :
  mget_keys (offline_request <$> reqs) = mget_keys reqs.
Proof.
  induction reqs as [|rq reqs IH]; [done|].
  rewrite fmap_cons. simpl.
  change (get_key (set_offline (req_fn rq)) (args_of (offline_request rq))
                  (kwargs_of (offline_request rq)))
    with (get_key (req_fn rq) (args_of rq) (kwargs_of rq)).
  by rewrite IH.
Qed.

Lemma mget_loop_offline (rc : RedisCache) (reqs : list request) (keys : list string)
    (results : list (option string)) :
  ∀ i acc w,
    mget_loop rc (offline_request <$> reqs) keys i results acc w
    = mget_loop rc reqs keys i results acc w.
Proof.
  induction results as [|result results IH]; intros i [[out needs] pipe] w; [done|].
  simpl. rewrite list_lookup_fmap.
  destruct result as [v|].
  - unfold mbind, st_bind. destruct (codec _ w) as [[?|?] ?]; [done|apply IH].
  - destruct (reqs !! i) as [rq|]; simpl; [|done].
    destruct (keys !! i) as [key|]; [|done].
    unfold mbind, st_bind.
    change (call_fn (original_fn (set_offline (req_fn rq))) (args_of (offline_request rq))
                    (kwargs_of (offline_request rq)))
      with (call_fn (original_fn (req_fn rq)) (args_of rq) (kwargs_of rq)).
    destruct (call_fn _ _ _ w) as [[?|res] w']; [done|].
    destruct (codec _ w') as [[?|?] ?]; [done|]. apply IH.
Qed.

End budget.


(** X16. Only the wrapped call honours the offline flag: [mget] on
    requests whose decorators are offline does exactly what it does when they
    are online (it sends its MGET all the same), and so do [invalidate] and
    [invalidate_all]. *)
Theorem offline_flag_ignored_outside_call (rc : RedisCache) (reqs : list request)
    (self : CacheDecorator) (args : pyargs) (kwargs : pykwargs) (w : world) :
  mget rc (offline_request <$> reqs) w = mget rc reqs w
  ∧ invalidate (set_offline self) args kwargs w = invalidate self args kwargs w
  ∧ invalidate_all (set_offline self) w = invalidate_all self w.
Proof.
  split_and!; [|done..].
  unfold mget. rewrite mget_keys_offline.
  destruct (mget_keys reqs) as [e|keys]; [done|].
  unfold mbind at 1 5, st_bind at 1 5, of_sum.
  unfold mbind at 1 4, st_bind at 1 4.
  destruct (client_mget keys w) as [[e|results] w1]; [done|].
  unfold mbind at 1 3, st_bind at 1 3.
  by rewrite mget_loop_offline.
Qed.

(** * The limit as an invariant *)

Section bound.
Variable zk : string.
Variable L : Z.
Implicit Types (r : redis) (d : gmap string rvalue) (w : world).

Lemma zcard_insert_string d k v e :
  (zcard (<[k := RString v e]> d) zk <= zcard d zk)%nat.
Proof.
  unfold zcard, zset_at. destruct (decide (k = zk)) as [->|Hne].
  - rewrite lookup_insert_eq, map_size_empty. lia.
  - by rewrite lookup_insert_ne.
Qed.

Lemma zcard_delete d k : (zcard (delete k d) zk <= zcard d zk)%nat.
Proof.
  unfold zcard, zset_at. destruct (decide (k = zk)) as [->|Hne].
  - rewrite lookup_delete_eq, map_size_empty. lia.
  - by rewrite lookup_delete_ne.
Qed.

(** A run of the script, whatever its outcome, keeps the tracking set at
    [zk] within [L], when its own limit on [zk] is at most [L]. *)
Lemma script_keeps_bound k zk' v ttl limit r :
  (zk' = zk -> 0 < limit -> limit <= L) ->
  Z.of_nat (zcard (db r) zk) <= L ->
  Z.of_nat (zcard (db (cache_lua_fn k zk' v ttl limit r).2) zk) <= L.
Proof.
  intros Hlim Hb.
  pose proof (zcard_insert_string (db r) k v (expiry ttl)) as Hins.
  destruct (Z_lt_le_dec 0 limit) as [Hl|Hl].
  2: { rewrite cache_lua_fn_untracked by done. simpl. lia. }
  destruct (decide (k = zk')) as [Heq|Hne].
  { rewrite cache_lua_fn_refused by auto. simpl. lia. }
  destruct (db r !! zk') as [[v0 e0|z0]|] eqn:Hzk'.
  { rewrite cache_lua_fn_refused; [simpl; lia|done|].
    right. by exists v0, e0. }
  all: destruct (time_score_is_Some (clock r (tick r))) as [t Ht].
  all: rewrite (cache_lua_fn_tracked _ _ _ _ _ _ t); [|done|done| |done].
  all: try (intros (v1 & e1 & H); congruence).
  all: simpl.
  all: destruct (zpopmin (Z.to_nat (Z.of_nat (size (<[k := t]> (zset_at (db r) zk'))) - limit))
                        (<[k := t]> (zset_at (db r) zk'))) as [popped rest] eqn:Hpop.
  all: pose proof (zpopmin_spec _ _ _ _ Hpop) as (Hlen & Hsz & _).
  all: destruct (decide (zk = zk')) as [->|Hzz].
  all: try (unfold zcard; rewrite (zset_at_tracked_db _ _ _ _ _ _ _ _ _ Hpop);
            destruct (decide (zk' ∈ popped.*1)); [rewrite map_size_empty; lia|];
            specialize (Hlim eq_refl Hl); lia).
  all: unfold zcard, zset_at at 1;
       rewrite (tracked_db_lookup _ _ _ _ _ _ _ _ _ _ Hpop);
       destruct (decide (zk ∈ popped.*1)); [rewrite map_size_empty; lia|];
       rewrite decide_False by done;
       destruct (decide (zk = k)); [rewrite map_size_empty; lia|];
       unfold zcard, zset_at in Hb; lia.
Qed.

Lemma run_pipeline_keeps_bound (cs : list command) r :
  Forall (fun c => ∃ k zk' v ttl limit,
              c = EVALSHA k zk' v ttl limit ∧ (zk' = zk -> 0 < limit -> limit <= L)) cs ->
  Z.of_nat (zcard (db r) zk) <= L ->
  Z.of_nat (zcard (db (run_pipeline cs r).2) zk) <= L.
Proof.
  revert r. induction cs as [|c cs IH]; intros r Hcs Hb; [done|].
  apply Forall_cons in Hcs as [(k & zk' & v & ttl & limit & -> & Hlim) Hcs].
  simpl. unfold mbind, st_bind, mret, st_ret.
  pose proof (script_keeps_bound k zk' v ttl limit r Hlim Hb) as Hstep.
  destruct (cache_lua_fn k zk' v ttl limit r) as [[e|rep] r1]; simpl in *.
  - specialize (IH r1 Hcs Hstep). by destruct (run_pipeline cs r1).
  - specialize (IH r1 Hcs Hstep). by destruct (run_pipeline cs r1).
Qed.

Lemma run_invalidate_keeps_bound (key zk' : string) r :
  Z.of_nat (zcard (db r) zk) <= L ->
  Z.of_nat (zcard (db (run_pipeline [DEL [key]; ZREM zk' [key]] r).2) zk) <= L.
Proof.
  intros Hb. pose proof (zcard_delete (db r) key) as Hdel.
  simpl. unfold mbind, st_bind, mret, st_ret, step, redis_DEL, redis_ZREM. simpl.
  destruct (delete key (db r) !! zk') as [[v0 e0|z]|] eqn:E; simpl; [lia| |lia].
  unfold put_zset. destruct (decide (delete key z = ∅)); simpl.
  - pose proof (zcard_delete (delete key (db r)) zk'). lia.
  - destruct (decide (zk = zk')) as [->|Hne].
    + unfold zcard, zset_at in *. rewrite lookup_insert_eq. rewrite E in Hdel.
      pose proof (map_size_delete key z) as Hs.
      destruct (z !! key); simpl in Hs; lia.
    + unfold zcard, zset_at in *. rewrite lookup_insert_ne by done. lia.
Qed.

End bound.

(** X17. The limit is an invariant of the library.  For a decorator, if
    its tracking set has at most [limit] members, it still has after any
    sequence of wrapped calls, after [invalidate], after [invalidate_all],
    and after a batch whose requests on the same tracking key have a limit
    no higher; whatever these operations return or raise. *)
Theorem limit_is_invariant (self : CacheDecorator) :
  let bounded (w : world) :=
    Z.of_nat (zcard (db (server w)) (keys_key self)) <= limit self in
  (∀ (calls : list (pyargs * pykwargs)) w,
     bounded w -> bounded (inner_all self calls w).2)
  ∧ (∀ (rc : RedisCache) (reqs : list request) w,
       (∀ rq, rq ∈ reqs -> keys_key (req_fn rq) = keys_key self ->
              limit (req_fn rq) <= limit self) ->
       bounded w -> bounded (mget rc reqs w).2)
  ∧ (∀ args kwargs w, bounded w -> bounded (invalidate self args kwargs w).2)
  ∧ (∀ w, bounded w -> bounded (invalidate_all self w).2).
Proof.
  intros bounded. subst bounded. simpl.
  assert (Hinner : ∀ self1 args kwargs w,
            same_entry self self1 ->
            Z.of_nat (zcard (db (server w)) (keys_key self)) <= limit self ->
            Z.of_nat (zcard (db (server (inner self1 args kwargs w).2)) (keys_key self))
            <= limit self).
  { intros self1 args kwargs w Hsame Hb.
    destruct (inner_server self1 args kwargs w) as [->|(key & v & _ & ->)]; [done|].
    apply script_keeps_bound; [|done]. by destruct Hsame as [->| ->]. }
  split_and!.
  - intros calls. assert (Hgen : ∀ self1 w, same_entry self self1 ->
        Z.of_nat (zcard (db (server w)) (keys_key self)) <= limit self ->
        Z.of_nat (zcard (db (server (inner_all self1 calls w).2)) (keys_key self))
        <= limit self).
    { induction calls as [|[args kwargs] calls IH]; intros self1 w Hsame Hb; [done|].
      simpl. unfold mbind, st_bind.
      pose proof (Hinner self1 args kwargs w Hsame Hb) as Hstep.
      pose proof (inner_entry self1 args kwargs w) as Hent.
      destruct (inner self1 args kwargs w) as [[e|[out self2]] w1]; [done|].
      simpl in Hstep. specialize (Hent _ _ eq_refl).
      assert (Hsame2 : same_entry self self2).
      { destruct Hsame as [->| ->], Hent as [->| ->]; by (left + right). }
      specialize (IH self2 w1 Hsame2 Hstep).
      by destruct (inner_all self2 calls w1) as [[e|[outs self3]] w2]. }
    intros w. apply Hgen. by left.
  - intros rc reqs w Hreqs Hb. unfold mget.
    destruct (mget_keys reqs) as [e|keys] eqn:Hkeys; [done|].
    unfold mbind at 1, st_bind at 1, of_sum.
    unfold mbind at 1, st_bind at 1, client_mget, round_trip.
    destruct (fault w (round_trips w)); [done|].
    unfold step, redis_MGET. unfold mbind at 1, st_bind at 1.
    set (w1 := after_round_trip (EvSend (MGET keys)) (server w) w).
    destruct (mget_loop_frame rc reqs keys (mget_one (db (server w)) <$> keys) 0
                              ([], false, []) w1 (Forall_nil_2 _)) as (Hs & _ & _ & Hq).
    destruct (mget_loop rc reqs keys 0 _ _ w1) as [[e|[[out needs] pipe]] w2];
      simpl in *; [by rewrite Hs|].
    specialize (Hq _ _ _ eq_refl).
    destruct needs; simpl.
    + unfold mbind, st_bind, pipeline_execute, round_trip.
      destruct (fault w2 (round_trips w2)); simpl; [by rewrite Hs|].
      pose proof (run_pipeline_keeps_bound (keys_key self) (limit self) pipe (server w2)) as Hp.
      destruct (run_pipeline pipe (server w2)) as [res srv]. simpl in Hp.
      assert (Z.of_nat (zcard (db srv) (keys_key self)) <= limit self).
      { apply Hp; [|by rewrite Hs]. eapply Forall_impl; [exact Hq|].
        intros c (rq & key & v & Hrq & _ & ->). eexists _, _, _, _, _. split; [done|].
        intros Hzk _. by apply Hreqs. }
      by destruct res.
    + unfold mbind, st_bind, mret, st_ret. simpl. by rewrite Hs.
  - intros args kwargs w Hb. unfold invalidate.
    destruct (get_key self args kwargs) as [e|key]; [done|].
    unfold mbind, st_bind, of_sum, pipeline_execute, round_trip.
    destruct (fault w (round_trips w)); [done|].
    pose proof (run_invalidate_keeps_bound (keys_key self) (limit self) key
                  (keys_key self) (server w) Hb) as Hp.
    by destruct (run_pipeline _ (server w)) as [[?|?] ?].
  - intros w Hb. unfold invalidate_all.
    unfold mbind, st_bind, client_zrange_all, client_delete, round_trip.
    destruct (fault w (round_trips w)); [done|].
    unfold step at 1, redis_ZRANGE_all.
    destruct (db (server w) !! keys_key self) as [[v0 e0|z]|] eqn:E; simpl; [done| |].
    + destruct (fault w (S (round_trips w))); simpl; [done|].
      unfold step. rewrite redis_DEL_nonempty.
      2: { intros H. by apply app_eq_nil in H as [_ ?]. }
      simpl. unfold zcard, zset_at. rewrite delete_all_lookup.
      rewrite decide_True; [rewrite map_size_empty; unfold zcard in Hb; lia|].
      apply elem_of_app. right. left.
    + destruct (fault w (S (round_trips w))); simpl; [done|].
      unfold zcard, zset_at. rewrite lookup_delete_eq, map_size_empty.
      unfold zcard in Hb. lia.
Qed.

(** * Namespaces *)

(** X18. [__call__] takes the namespace given when it is a non-empty
    string and the qualified name of the function otherwise.  Two functions
    decorated under the same explicit namespace (and prefix and codec) get
    the same keys and the same tracking key, so they share entries: online,
    when the key holds a non-empty value, a call of the second function
    returns that value decoded without invoking anything. *)
Theorem explicit_namespace_is_shared (prefix : string)
    (ser : pyobj -> option serialized) (des : string -> option pyobj)
    (ttl1 limit1 ttl2 limit2 : Z) (ns : string) (fn1 fn2 : pyfun)
    (args : pyargs) (kwargs : pykwargs) :
  let self1 := CacheDecorator_call prefix ser des ttl1 limit1 (Some ns) false fn1 in
  let self2 := CacheDecorator_call prefix ser des ttl2 limit2 (Some ns) false fn2 in
  ns ≠ EmptyString ->
  namespace self1 = ns
  ∧ namespace (CacheDecorator_call prefix ser des ttl1 limit1 None false fn1) = qualname fn1
  ∧ namespace (CacheDecorator_call prefix ser des ttl1 limit1 (Some EmptyString) false fn1)
    = qualname fn1
  ∧ keys_key self1 = keys_key self2
  ∧ get_key self1 args kwargs = get_key self2 args kwargs
  ∧ ∀ key v w,
      get_key self1 args kwargs = inr key ->
      fault w (round_trips w) = None ->
      stored (db (server w)) key (Some v) -> v ≠ EmptyString ->
      inner self2 args kwargs w
      = (match des v with
         | Some x => inr (x, self2)
         | None => inl CodecError
         end, after_round_trip (EvSend (GET key)) (server w) w).
Proof.
  intros self1 self2 Hns. destruct ns as [|c ns]; [done|].
  split_and!; try done.
  intros key v w Hk Hf Hst Hv.
  by rewrite (inner_hit self2 args kwargs key w v eq_refl Hk Hf Hst Hv).
Qed.

(** * Invocations in a batch *)

Section batch_calls.

Lemma calls_in_app (a b : list event) : calls_in (a ++ b) = (calls_in a + calls_in b)%nat.
Proof. unfold calls_in. by rewrite filter_app, length_app. Qed.

Lemma calls_in_misses (d : gmap string rvalue) (reqs : list request) :
  ∀ keys, length reqs = length keys ->
    calls_in (concat (miss_call d <$> zip reqs keys))
    = length (filter (fun k => is_miss d k = true) keys).
Proof.
  induction reqs as [|rq reqs IH]; intros [|key keys] Hlen; try done.
  simpl in Hlen. change (zip (rq :: reqs) (key :: keys)) with ((rq, key) :: zip reqs keys).
  rewrite fmap_cons. simpl concat. rewrite calls_in_app, IH by lia.
  unfold miss_call at 1. simpl fst. simpl snd.
  destruct (is_miss d key) eqn:Hm.
  - rewrite filter_cons_True by done. done.
  - rewrite filter_cons_False by (by rewrite Hm). done.
Qed.

End batch_calls.

(** X19. A batch invokes one computation per absent reply, and none for a
    present one: with the store reachable for the MGET and the codec of the
    [RedisCache] accepting the values met, the number of invocations [mget]
    makes is the number of keys of the batch that are absent, counted with
    repetitions (a request given twice and absent is computed twice),
    whatever becomes of the pipeline. *)
Theorem batch_invokes_once_per_absent_key (self : RedisCache) (reqs : list request)
    (keys : list string) (results : list pyobj) (w : world) :
  let d := db (server w) in
  mget_keys reqs = inr keys ->
  fault w (round_trips w) = None ->
  Forall2 (fun p r => expected_item self d p.1 p.2 = Some r) (zip reqs keys) results ->
  calls_in (trace (mget self reqs w).2)
  = (calls_in (trace w) + length (filter (fun k => is_miss d k = true) keys))%nat.
Proof.
  intros d Hkeys Hf Hrs.
  rewrite (mget_run self reqs keys results w Hkeys Hf Hrs). fold d.
  assert (Hlen : length reqs = length keys).
  { symmetry. by apply mget_keys_length. }
  assert (Hbase : calls_in ((trace w ++ [EvSend (MGET keys)])
                            ++ concat (miss_call d <$> zip reqs keys))
                  = (calls_in (trace w)
                     + length (filter (fun k => is_miss d k = true) keys))%nat).
  { rewrite !calls_in_app, calls_in_misses by done.
    unfold calls_in at 2. rewrite filter_cons_False by done. simpl. lia. }
  destruct (existsb (is_miss d) keys); [|done].
  unfold mbind, st_bind, pipeline_execute, round_trip. simpl.
  destruct (fault w (S (round_trips w))); simpl.
  - rewrite calls_in_app, Hbase. unfold calls_in at 2.
    rewrite filter_cons_False by done. simpl. lia.
  - destruct (run_pipeline _ _) as [[?|?] ?]; simpl;
      rewrite calls_in_app, Hbase; unfold calls_in at 2;
      rewrite filter_cons_False by done; simpl; lia.
Qed.

(** * The further properties at concrete inputs *)

(** X1 at a concrete input: a fourth key written with [limit = 1] on the
    tracking set with three members. *)
Lemma tracked_write_is_consistent_witness :
  let k := "rc:app.double:[[4], {}]" in
  let zk := "rc:app.double:keys" in
  let r := Demo.server_crowded in
  let r' := (cache_lua_fn k zk "8" 0 1 r).2 in
  ((∃ t, time_score (clock r (tick r)) = Some t
         ∧ zset_at (db r') zk !! k = Some t
         ∧ db r' !! k = Some (RString "8" (expiry 0)))
   ∨ (zset_at (db r') zk !! k = None ∧ db r' !! k = None))
  ∧ ∀ m, m ≠ k -> is_Some (zset_at (db r) zk !! m) ->
         zset_at (db r') zk !! m = None -> db r' !! m = None.
Proof.
  intros k zk r r'.
  apply (tracked_write_is_consistent k zk "8" 0 1 r r' "OK").
  - lia.
  - vm_compute. reflexivity.
  - vm_compute. reflexivity.
Defined.

(** X2 at a concrete input: with [limit = 2] and three members, the write
    of a fourth key leaves two. *)
Lemma eviction_removes_exactly_the_excess_witness :
  let k := "rc:app.double:[[4], {}]" in
  let zk := "rc:app.double:keys" in
  let r := Demo.server_crowded in
  let r' := (cache_lua_fn k zk "8" 0 2 r).2 in
  zcard (db r') zk = 2%nat
  ∧ db r' !! "rc:app.double:[[1], {}]" = db r !! "rc:app.double:[[1], {}]".
Proof.
  intros k zk r r'.
  destruct (eviction_removes_exactly_the_excess k zk "8" 0 2 r r' "OK" (1000 # 10)%Q)
    as [Hcard _].
  - lia.
  - vm_compute. reflexivity.
  - vm_compute. reflexivity.
  - vm_compute. reflexivity.
  - split; [rewrite Hcard|]; vm_compute; reflexivity.
Defined.

(** X3 at a concrete input: the first of three tracked keys written again
    with [limit = 3]. *)
Lemma rewrite_of_tracked_key_evicts_nothing_witness :
  let k := "rc:app.double:[[1], {}]" in
  let zk := "rc:app.double:keys" in
  let r := Demo.server_crowded in
  (cache_lua_fn k zk "2" 0 3 r).1 = inr "OK"
  ∧ zcard (db (cache_lua_fn k zk "2" 0 3 r).2) zk = 3%nat.
Proof.
  intros k zk r.
  destruct (rewrite_of_tracked_key_evicts_nothing k zk "2" 0 3 r
              (zset_at (db r) zk) (1000 # 10)%Q) as [Hrun Hsize].
  - lia.
  - discriminate.
  - vm_compute. reflexivity.
  - vm_compute. eexists. reflexivity.
  - vm_compute. discriminate.
  - vm_compute. reflexivity.
  - rewrite Hrun. split; vm_compute; reflexivity.
Defined.

(** X4 at a concrete input: the tracking key was written as a value by an
    earlier run without limit. *)
Lemma refused_tracking_leaves_value_written_witness :
  let zk := "rc:f:keys" in
  let r := (cache_lua_fn zk zk "1" 0 0 Demo.server0).2 in
  let run := cache_lua_fn "rc:f:a" zk "2" 0 1 r in
  run.1 = inl WRONGTYPE
  ∧ db run.2 !! "rc:f:a" = Some (RString "2" None)
  ∧ db run.2 !! zk = Some (RString "1" None).
Proof.
  intros zk r run.
  destruct (refused_tracking_leaves_value_written "rc:f:a" zk "2" 0 1 r) as [Hrun Hzk].
  - lia.
  - right. exists "1", None. vm_compute. reflexivity.
  - split_and!.
    + subst run. rewrite Hrun. reflexivity.
    + subst run. rewrite Hrun. vm_compute. reflexivity.
    + subst run. rewrite Hzk by discriminate. vm_compute. reflexivity.
Defined.

(** X5 at a concrete input: a tracked key invalidated, then called. *)
Lemma invalidate_then_call_recomputes_witness :
  let self := Demo.double_entry in
  let key := "rc:app.double:[[1], {}]" in
  let w1 := (invalidate self [PyInt 1] [] Demo.world_crowded).2 in
  db (server w1) !! key = None
  ∧ zset_at (db (server w1)) (keys_key self) !! key = None
  ∧ (invalidate self [PyInt 1] [] Demo.world_crowded).1 = inr ()
  ∧ ∃ rest,
      trace (inner self [PyInt 1] [] w1).2
      = trace w1 ++ EvSend (GET key) :: call_event self [PyInt 1] [] :: rest.
Proof.
  intros self key w1.
  destruct (invalidate_then_call_recomputes self [PyInt 1] [PyInt 1] [] [] key
              Demo.world_crowded) as (H1 & H2 & _ & _ & H5 & H6); [reflexivity..|].
  split_and!.
  - exact H1.
  - exact H2.
  - apply H5. intros (v & e & H). vm_compute in H. discriminate.
  - apply H6; reflexivity.
Defined.

(** X6 at a concrete input: the tracking set with three members. *)
Lemma invalidate_all_clears_tracked_keys_witness :
  let self := Demo.double_entry in
  let w := Demo.world_crowded in
  ∃ w1,
    invalidate_all self w = (inr (), w1)
    ∧ db (server w1) !! keys_key self = None
    ∧ db (server w1) !! "rc:app.double:[[2], {}]" = None.
Proof.
  intros self w.
  destruct (invalidate_all_clears_tracked_keys self w) as [Hok _]; [reflexivity|].
  destruct Hok as (w1 & Hrun & _ & Hzk & Hmem & _).
  - intros (v & e & H). vm_compute in H. discriminate.
  - reflexivity.
  - exists w1. split_and!; [exact Hrun|exact Hzk|].
    apply Hmem. vm_compute. eexists. reflexivity.
Defined.

(** X7 at a concrete input: a decorator without limit on an empty store. *)
Lemma invalidate_all_keeps_untracked_values_witness :
  let self := Demo.double_untracked in
  let w1 := (inner self [PyInt 3] [] Demo.world0).2 in
  let w2 := (invalidate_all self w1).2 in
  (inner self [PyInt 3] [] Demo.world0).1 = inr (PyInt 6, self)
  ∧ (invalidate_all self w1).1 = inr ()
  ∧ db (server w2) !! "rc:app.double:[[3], {}]" = Some (RString "6" None).
Proof.
  intros self w1 w2.
  apply (invalidate_all_keeps_untracked_values self [PyInt 3] [] "rc:app.double:[[3], {}]"
           None (SStr "6") Demo.world0).
  - simpl. lia.
  - reflexivity.
  - reflexivity.
  - discriminate.
  - reflexivity.
  - reflexivity.
  - reflexivity.
  - reflexivity.
  - intros i _. reflexivity.
Defined.

(** X8 at a concrete input: the empty string stored by a call of [blank],
    read by a batch with the same codec and by another call. *)
Lemma mget_hits_on_empty_value_witness :
  let rc := {| rc_prefix := "rc"; rc_serializer := Demo.raw_serializer;
               rc_deserializer := Demo.raw_deserializer |} in
  let self := Demo.blank_entry in
  let key := "rc:app.blank:[[], {}]" in
  let rq := {| req_fn := self; req_args := Some []; req_kwargs := Some [] |} in
  let w := (inner self [] [] Demo.world0).2 in
  mget rc [rq] w
  = (inr [PyStr EmptyString], after_round_trip (EvSend (MGET [key])) (server w) w)
  ∧ ∃ rest,
      trace (inner self [] [] w).2
      = trace w ++ EvSend (GET key) :: call_event self [] [] :: rest.
Proof.
  intros rc self key rq w.
  destruct (mget_hits_on_empty_value rc self [] [] key EmptyString w) as [Hbatch Hcall].
  - reflexivity.
  - reflexivity.
  - vm_compute. eexists. reflexivity.
  - split; [exact Hbatch|]. apply Hcall; reflexivity.
Defined.

(** X9 at a concrete input: a sorted set sits where the key of the call
    is. *)
Lemma wrong_type_key_raises_in_call_witness :
  let self := Demo.double_entry in
  let key := "rc:app.double:[[1], {}]" in
  let srv := (cache_lua_fn "rc:f:a" key "1" 0 1 Demo.server0).2 in
  let w := {| server := srv; fault := fun _ => None; round_trips := 0; trace := [] |} in
  let rq := {| req_fn := self; req_args := Some [PyInt 1]; req_kwargs := Some [] |} in
  inner self [PyInt 1] [] w
  = (inl WRONGTYPE, after_round_trip (EvSend (GET key)) (server w) w)
  ∧ ∃ rest,
      trace (mget Demo.cache [rq] w).2
      = trace w ++ EvSend (MGET [key]) :: call_event self [PyInt 1] [] :: rest.
Proof.
  intros self key srv w rq.
  apply (wrong_type_key_raises_in_call Demo.cache self [PyInt 1] [] key
           (zset_at (db srv) key) w).
  - reflexivity.
  - reflexivity.
  - reflexivity.
  - reflexivity.
  - vm_compute. reflexivity.
Defined.

(** X10 at concrete inputs: a serializer that raises on everything; a
    stored value the deserializer raises on; an offline decorator. *)
Lemma codec_failures_in_call_witness :
  let self := Demo.double_entry in
  let mute := CacheDecorator_call "rc" (fun _ => None) Demo.loads 0 0 None false Demo.double in
  let deaf := with_deserializer (fun _ => None) self in
  let key := "rc:app.double:[[3], {}]" in
  let w := (inner self [PyInt 3] [] Demo.world0).2 in
  inner mute [PyInt 3] [] Demo.world0 = (inl CodecError, Demo.world0)
  ∧ inner deaf [PyInt 3] [] w
    = (inl CodecError, after_round_trip (EvSend (GET key)) (server w) w)
  ∧ inner (set_offline deaf) [PyInt 3] [] w
    = (inr (PyInt 6, set_offline deaf),
       logged (call_event (set_offline deaf) [PyInt 3] []) w).
Proof.
  intros self mute deaf key w. split_and!.
  - destruct (codec_failures_in_call mute [PyInt 3] [] Demo.world0) as (H1 & _).
    apply H1; reflexivity.
  - destruct (codec_failures_in_call deaf [PyInt 3] [] w) as (_ & H2 & _).
    apply (H2 key "6"); try reflexivity.
    + vm_compute. eexists. reflexivity.
    + discriminate.
  - destruct (codec_failures_in_call (set_offline deaf) [PyInt 3] [] w) as (_ & _ & _ & H4).
    apply H4. reflexivity.
Defined.

(** X11 at a concrete input: the product stored for the receiver 3 is
    served to the receiver 5. *)
Lemma receivers_share_entries_witness :
  let self := Demo.scaled_entry in
  let key := "rc:app.scaled:[[4], {}]" in
  let w := (inner self [PyInt 3; PyInt 4] [] Demo.world0).2 in
  inner_key self [PyInt 5; PyInt 4] [] = inr key
  ∧ inner self [PyInt 5; PyInt 4] [] w
    = (inr (PyInt 12, self), after_round_trip (EvSend (GET key)) (server w) w).
Proof.
  intros self key w.
  apply (receivers_share_entries self [PyInt 4] [] key "12" w).
  - reflexivity.
  - reflexivity.
  - reflexivity.
  - reflexivity.
  - vm_compute. eexists. reflexivity.
  - discriminate.
Defined.

(** X12 at a concrete input. *)
Lemma keys_coincide_iff_same_text_witness :
  let self := Demo.double_entry in
  (get_key self [PyInt 1] [] = get_key self [PyInt 2] []
   ↔ key_text (SStr "[[1], {}]") = key_text (SStr "[[2], {}]"))
  ∧ (keys_key self = prefix self +:+ ":" +:+ namespace self +:+ ":keys" ->
     (get_key self [PyInt 1] [] = inr (keys_key self)
      ↔ key_text (SStr "[[1], {}]") = "keys")).
Proof.
  intros self.
  apply (keys_coincide_iff_same_text self [PyInt 1] [PyInt 2] [] []); reflexivity.
Defined.

(** X13 at a concrete input: the first call of [double] on 3. *)
Lemma miss_stores_value_with_ttl_witness :
  let self := Demo.double_untracked in
  let key := "rc:app.double:[[3], {}]" in
  let w1 := (inner self [PyInt 3] [] Demo.world0).2 in
  db (server w1) = <[key := RString "6" None]> (db (server Demo.world0)).
Proof.
  intros self key w1.
  destruct (miss_stores_value_with_ttl self [PyInt 3] [] key None (SStr "6")
              (PyInt 6, self) Demo.world0 w1) as (_ & _ & Hdb).
  - reflexivity.
  - reflexivity.
  - reflexivity.
  - reflexivity.
  - reflexivity.
  - reflexivity.
  - vm_compute. reflexivity.
  - apply Hdb. simpl. lia.
Defined.



(** X17 at a concrete input: three calls and a batch on a decorator with
    [limit = 2]. *)
Lemma limit_is_invariant_witness :
  let self := Demo.double_entry in
  let calls := [([PyInt 1], []); ([PyInt 2], []); ([PyInt 3], [])] in
  let reqs := [Demo.ask self 4; Demo.ask self 5; Demo.ask self 6] in
  let w1 := (inner_all self calls Demo.world0).2 in
  Z.of_nat (zcard (db (server w1)) (keys_key self)) <= 2
  ∧ Z.of_nat (zcard (db (server (mget Demo.cache reqs w1).2)) (keys_key self)) <= 2.
Proof.
  intros self calls reqs w1.
  destruct (limit_is_invariant self) as (Hcalls & Hbatch & _).
  assert (H1 : Z.of_nat (zcard (db (server w1)) (keys_key self)) <= limit self).
  { apply Hcalls. vm_compute. discriminate. }
  split; [exact H1|].
  apply Hbatch; [|exact H1].
  intros rq Hrq _.
  repeat (apply elem_of_cons in Hrq as [->|Hrq]); [simpl; lia..|].
  by apply elem_of_nil in Hrq.
Defined.

(** X18 at a concrete input: [double] and [scaled] under the namespace
    [shared]. *)
Lemma explicit_namespace_is_shared_witness :
  let self1 := CacheDecorator_call "rc" Demo.json_serializer Demo.loads 0 0
                                   (Some "shared") false Demo.double in
  let self2 := CacheDecorator_call "rc" Demo.json_serializer Demo.loads 0 0
                                   (Some "shared") false Demo.scaled in
  let w := (inner self1 [PyInt 3] [] Demo.world0).2 in
  get_key self1 [PyInt 3] [] = get_key self2 [PyInt 3] []
  ∧ inner self2 [PyInt 3] [] w
    = (inr (PyInt 6, self2),
       after_round_trip (EvSend (GET "rc:shared:[[3], {}]")) (server w) w).
Proof.
  intros self1 self2 w.
  destruct (explicit_namespace_is_shared "rc" Demo.json_serializer Demo.loads 0 0 0 0
              "shared" Demo.double Demo.scaled [PyInt 3] [])
    as (_ & _ & _ & _ & Hkey & Hhit); [discriminate|].
  split; [exact Hkey|].
  apply (Hhit "rc:shared:[[3], {}]" "6" w).
  - reflexivity.
  - reflexivity.
  - vm_compute. eexists. reflexivity.
  - discriminate.
Defined.

(** X19 at a concrete input: a batch on an empty store with one request
    given twice. *)
Lemma batch_invokes_once_per_absent_key_witness :
  let self := Demo.double_entry in
  let reqs := [Demo.ask self 1; Demo.ask self 5; Demo.ask self 1] in
  calls_in (trace (mget Demo.cache reqs Demo.world0).2) = 3%nat.
Proof.
  intros self reqs.
  etrans.
  - apply (batch_invokes_once_per_absent_key Demo.cache reqs
             ["rc:app.double:[[1], {}]"; "rc:app.double:[[5], {}]";
              "rc:app.double:[[1], {}]"]
             [PyInt 2; PyInt 10; PyInt 2] Demo.world0).
    + reflexivity.
    + reflexivity.
    + repeat constructor.
  - vm_compute. reflexivity.
Defined.
